(** * A model of [tools/arisa/src/crawler.py], with [scraping.py] and the
    graph of [analysis/tsumugi/comm_network.py]

    The crawler fetches a seed page, enumerates the anchors whose [href]
    matches the site's pattern, visits each new link once, extracts title,
    body and image links from the fetched page and finally downloads the
    collected images.  The model below follows the Python source function
    by function.  Library code (requests, BeautifulSoup's parser and CSS
    engine, the clock and the file system) is represented by an explicit
    environment and by a log of the actions performed. *)

From Stdlib Require Import Ascii String List Arith Lia.
From Stdlib Require Import DecimalFacts DecimalString DecimalNat.
From stdpp Require Import base tactics option list strings gmap sets.

#[local] Set Warnings "-clear-no-such-hyp".

Local Open Scope string_scope.
Local Open Scope list_scope.

(** ** Regular expressions ([re])

    Compiled patterns are kept as syntax trees.  [re_search] is
    [Pattern.search]: it succeeds when some substring of the subject is
    matched by the pattern.  As in Python, [.] matches every character but
    the newline. *)

Module Re.

Inductive regex : Type :=
| Void
| Eps
| Chr (c : ascii)
| Dot
| Cat (r1 r2 : regex)
| Alt (r1 r2 : regex)
| Star (r : regex).

Definition newline : ascii := "010"%char.

Definition is_newline (c : ascii) : bool := Ascii.eqb c newline.

(** The language of a pattern. *)
Inductive matches : regex → list ascii → Prop :=
| m_eps : matches Eps []
| m_chr c : matches (Chr c) [c]
| m_dot c : is_newline c = false → matches Dot [c]
| m_cat r1 r2 u v : matches r1 u → matches r2 v → matches (Cat r1 r2) (u ++ v)
| m_alt_l r1 r2 u : matches r1 u → matches (Alt r1 r2) u
| m_alt_r r1 r2 u : matches r2 u → matches (Alt r1 r2) u
| m_star_nil r : matches (Star r) []
| m_star_cons r u v :
    matches r u → matches (Star r) v → matches (Star r) (u ++ v).

Fixpoint nullable (r : regex) : bool :=
  match r with
  | Void => false
  | Eps => true
  | Chr _ => false
  | Dot => false
  | Cat r1 r2 => nullable r1 && nullable r2
  | Alt r1 r2 => nullable r1 || nullable r2
  | Star _ => true
  end.

Fixpoint deriv (c : ascii) (r : regex) : regex :=
  match r with
  | Void => Void
  | Eps => Void
  | Chr d => if Ascii.eqb c d then Eps else Void
  | Dot => if is_newline c then Void else Eps
  | Cat r1 r2 =>
      if nullable r1
      then Alt (Cat (deriv c r1) r2) (deriv c r2)
      else Cat (deriv c r1) r2
  | Alt r1 r2 => Alt (deriv c r1) (deriv c r2)
  | Star r1 => Cat (deriv c r1) (Star r1)
  end.

(** [prefix_match r s]: the pattern matches at the start of [s]
    ([Pattern.match]). *)
Fixpoint prefix_match (r : regex) (s : list ascii) : bool :=
  nullable r ||
  match s with
  | [] => false
  | c :: s' => prefix_match (deriv c r) s'
  end.

(** [search_from r s]: the pattern matches at some position of [s]. *)
Fixpoint search_from (r : regex) (s : list ascii) : bool :=
  prefix_match r s ||
  match s with
  | [] => false
  | _ :: s' => search_from r s'
  end.

Definition re_search (r : regex) (s : string) : bool :=
  search_from r (list_ascii_of_string s).

(** Literal text as a pattern. *)
Fixpoint lit (s : list ascii) : regex :=
  match s with
  | [] => Eps
  | c :: s' => Cat (Chr c) (lit s')
  end.

End Re.

Import Re.

(** ** Strings *)

(** [str.endswith]. *)
Fixpoint endswith (s suffix : string) : bool :=
  String.eqb s suffix ||
  match s with
  | EmptyString => false
  | String _ s' => endswith s' suffix
  end.

(** The one-character string holding a line feed. *)
Definition nl : string := String Re.newline EmptyString.

(** [sep.join(l)]. *)
Definition join (sep : string) (l : list string) : string :=
  String.concat sep l.

(** [str(i)] for a natural number. *)
Definition str_of_nat (i : nat) : string :=
  NilZero.string_of_uint (Nat.to_uint i).

(** [os.path.join] (POSIX) for two components. *)
Definition os_path_join (a b : string) : string :=
  if String.prefix "/" b then b
  else if String.eqb a "" || endswith a "/" then a +:+ b
  else a +:+ "/" +:+ b.

(** ** Documents (BeautifulSoup trees) *)

#[warnings="-register-all"]
Inductive node : Type :=
| NavigableString (s : string)
| Tag (name : string) (attrs : gmap string string) (contents : list node).

(** [Tag.descendants]: every node below the given one, in document order. *)
Fixpoint descendants (n : node) : list node :=
  match n with
  | NavigableString _ => []
  | Tag _ _ cs =>
      (fix go (l : list node) : list node :=
         match l with
         | [] => []
         | c :: l' => c :: descendants c ++ go l'
         end) cs
  end.

(** [Tag.get_text()]: the strings below the node, concatenated. *)
Fixpoint get_text (n : node) : string :=
  match n with
  | NavigableString s => s
  | Tag _ _ cs =>
      (fix go (l : list node) : string :=
         match l with
         | [] => ""
         | c :: l' => get_text c +:+ go l'
         end) cs
  end.

(** An attribute filter given as a compiled pattern accepts a value when
    [pattern.search(value)] succeeds; an absent attribute never matches. *)
Definition attr_matches (pattern : regex) (v : option string) : bool :=
  match v with
  | None => false
  | Some s => re_search pattern s
  end.

Definition tag_matches (name key : string) (pattern : regex) (n : node) : bool :=
  match n with
  | NavigableString _ => false
  | Tag nm attrs _ => String.eqb nm name && attr_matches pattern (attrs !! key)
  end.

(** [bs.find_all(name, {key: pattern})]. *)
Definition find_all (name key : string) (pattern : regex) (root : node)
  : list node :=
  List.filter (tag_matches name key pattern) (descendants root).

(** ** Exceptions, actions and the crawler's state *)

Inductive exn : Type :=
| AttributeError
| KeyError
| RequestException.

Inductive outcome (A : Type) : Type :=
| Returns (a : A)
| Raises (e : exn).
Arguments Returns {A} a.
Arguments Raises {A} e.

(** What [requests.get] hands back. *)
Record Response : Type := mkResponse {
  status_code : nat;
  text : string;
  content : string
}.

Inductive http_result : Type :=
| Resp (r : Response)
| Failed.

(** [Website].  The pattern is kept in the form that [re.compile] gives
    it. *)
Record Website : Type := mkWebsite {
  name : string;
  url : string;
  target_pattern : regex;
  absolute_url : bool;
  title_tag : string;
  body_tag : string
}.

(** [Content]. *)
Record Content : Type := mkContent {
  c_url : string;
  c_title : string;
  c_body : string;
  c_img : gset string
}.

(** The log of a run: requests, updates of [visited], printed contents,
    pauses and file-system writes, oldest first. *)
Inductive event : Type :=
| EvGet (u : string) (r : http_result)
| EvVisit (href : string)
| EvPrint (c : Content)
| EvSleep (secs : nat)
| EvMakedirs (dir : string)
| EvWrite (file : string) (bytes : string).

(** The mutable fields of a [Crawler] together with the log. *)
Record World : Type := mkWorld {
  visited : gset string;
  images_path : gset string;
  log : list event
}.

(** The world outside the program: the answer of the network to a
    request and the presence of a path, both of which may depend on
    everything that happened before; [BeautifulSoup(text, 'html.parser')];
    and [Tag.select], the CSS engine. *)
Record Env : Type := mkEnv {
  net : list event → string → http_result;
  path_exists : list event → string → bool;
  html_parser : string → node;
  css_select : node → string → list node
}.

Definition M (A : Type) : Type := World → outcome A * World.

Definition ret {A} (a : A) : M A := λ w, (Returns a, w).

Definition bind {A B} (m : M A) (k : A → M B) : M B :=
  λ w, match m w with
       | (Returns a, w') => k a w'
       | (Raises e, w') => (Raises e, w')
       end.

Definition raise {A} (e : exn) : M A := λ w, (Raises e, w).

Definition lift {A} (o : outcome A) : M A := λ w, (o, w).

(** [try: m except <caught>: handler]. *)
Definition try_except {A} (m : M A) (caught : exn → bool) (handler : M A)
  : M A :=
  λ w, match m w with
       | (Raises e, w') => if caught e then handler w' else (Raises e, w')
       | r => r
       end.

Definition emit (e : event) : M unit :=
  λ w, (Returns tt,
        {| visited := visited w; images_path := images_path w;
           log := log w ++ [e] |}).

Declare Scope crawl_scope.
Delimit Scope crawl_scope with crawl.
Notation "'let*' x ':=' c1 'in' c2" := (bind c1 (λ x, c2))
  (at level 10, x name, c1 at level 100, c2 at level 200) : crawl_scope.
Notation "c1 '>>' c2" := (bind c1 (λ _, c2))
  (at level 100, c2 at level 200, right associativity) : crawl_scope.
Local Open Scope crawl_scope.

(** ** The crawler *)

(** The pattern of [re.compile('.*png')]. *)
Definition png_pattern : regex :=
  Cat (Star Dot) (lit ["p"; "n"; "g"]%char).

(** [tag.attrs[key]]. *)
Definition attrs_getitem (n : node) (key : string) : outcome string :=
  match n with
  | NavigableString _ => Raises AttributeError
  | Tag _ attrs _ =>
      match attrs !! key with
      | Some v => Returns v
      | None => Raises KeyError
      end
  end.

(** [[tag.attrs[key] for tag in tags]]. *)
Fixpoint attrs_of (tags : list node) (key : string) : outcome (list string) :=
  match tags with
  | [] => Returns []
  | t :: tags' =>
      match attrs_getitem t key with
      | Raises e => Raises e
      | Returns v =>
          match attrs_of tags' key with
          | Raises e => Raises e
          | Returns vs => Returns (v :: vs)
          end
      end
  end.

Definition is_RequestException (e : exn) : bool :=
  match e with
  | RequestException => true
  | _ => false
  end.

Definition time_sleep (secs : nat) : M unit := emit (EvSleep secs).

Definition get_visited : M (gset string) := λ w, (Returns (visited w), w).

Definition get_images_path : M (gset string) :=
  λ w, (Returns (images_path w), w).

(** [self.visited.add(href)]. *)
Definition visited_add (href : string) : M unit :=
  λ w, (Returns tt,
        {| visited := {[href]} ∪ visited w; images_path := images_path w;
           log := log w ++ [EvVisit href] |}).

(** [self.images_path |= imgs]. *)
Definition images_path_update (imgs : gset string) : M unit :=
  λ w, (Returns tt,
        {| visited := visited w; images_path := images_path w ∪ imgs;
           log := log w |}).

Section Crawler.

Variable E : Env.
Variable site : Website.

(** [requests.get(url)]. *)
Definition requests_get (u : string) : M Response :=
  λ w, let r := net E (log w) u in
       let w' := {| visited := visited w; images_path := images_path w;
                    log := log w ++ [EvGet u r] |} in
       match r with
       | Resp resp => (Returns resp, w')
       | Failed => (Raises RequestException, w')
       end.

(** [Crawler.get_page]. *)
Definition get_page (u : string) : M (option node) :=
  let* req :=
    try_except (let* r := requests_get u in ret (Some r))
               is_RequestException
               (ret None) in
  match req with
  | None => ret None
  | Some r => ret (Some (html_parser E (text r)))
  end.

(** [Crawler.safe_get]. *)
Definition safe_get (page_obj : node) (selector : string) : string :=
  let selected_elems := css_select E page_obj selector in
  if negb (Nat.eqb (length selected_elems) 0)
     && Nat.ltb 0 (length selected_elems)
  then join nl (map get_text selected_elems)
  else "".

(** The image links of a page: the [href]s of the anchors found by
    [bs.find_all('a', {'href': re.compile('.*png')})]. *)
Definition img_obj (bs : node) : list node :=
  find_all "a" "href" png_pattern bs.

(** [Crawler.parse]. *)
Definition parse (u : string) : M unit :=
  let* bs := get_page u in
  match bs with
  | Some bs =>
      let title := safe_get bs (title_tag site) in
      let body := safe_get bs (body_tag site) in
      let* hrefs := lift (attrs_of (img_obj bs) "href") in
      let images_path := list_to_set hrefs in
      images_path_update images_path >>
      if negb (String.eqb title "") && negb (String.eqb body "")
      then emit (EvPrint (mkContent u title body images_path))
      else ret tt
  | None => ret tt
  end.

(** One iteration of the loop of [Crawler.crawl]; [count] is the value of
    the counter before the iteration, the result its value after. *)
Definition crawl_body (target_page : node) (count : nat) : M nat :=
  let* target_page := lift (attrs_getitem target_page "href") in
  let* seen := get_visited in
  (if decide (target_page ∉ seen)
   then
     visited_add target_page >>
     let target_page :=
       if absolute_url site then target_page
       else url site +:+ target_page in
     parse target_page
   else ret tt) >>
  let count := count + 1 in
  (if Nat.eqb (count mod 10) 0 then time_sleep 1 else ret tt) >>
  ret count.

Fixpoint crawl_loop (target_pages : list node) (count : nat) : M nat :=
  match target_pages with
  | [] => ret count
  | target_page :: rest =>
      let* count := crawl_body target_page count in
      crawl_loop rest count
  end.

(** [Crawler.crawl].  When the seed page could not be fetched [bs] is
    [None] and [bs.find_all] raises [AttributeError]. *)
Definition crawl : M unit :=
  let* bs := get_page (url site) in
  let pattern := target_pattern site in
  let* target_pages :=
    match bs with
    | None => raise AttributeError
    | Some bs => ret (find_all "a" "href" pattern bs)
    end in
  crawl_loop target_pages 0 >>
  ret tt.

(** One iteration of the loop of [Crawler.img_download]. *)
Definition img_download_body (save_dir : string) (i : nat) (path : string)
  : M unit :=
  let* resp := requests_get path in
  let img := content resp in
  emit (EvWrite (os_path_join save_dir (str_of_nat i +:+ ".png")) img) >>
  if Nat.eqb (i mod 10) 0 then time_sleep 1 else ret tt.

Fixpoint img_download_loop (save_dir : string) (i : nat) (paths : list string)
  : M unit :=
  match paths with
  | [] => ret tt
  | path :: rest =>
      img_download_body save_dir i path >>
      img_download_loop save_dir (S i) rest
  end.

Definition os_path_exists (p : string) : M bool :=
  λ w, (Returns (path_exists E (log w) p), w).

(** [Crawler.img_download].  The set is enumerated in the order of
    [elements]. *)
Definition img_download (save_dir : string) : M unit :=
  let* present := os_path_exists save_dir in
  (if negb present then emit (EvMakedirs save_dir) else ret tt) >>
  let* paths := get_images_path in
  img_download_loop save_dir 0 (elements paths).

End Crawler.

(** ** Notions used to state the properties *)

(** The value of an attribute of a tag, if present. *)
Definition attr (n : node) (key : string) : option string :=
  match n with
  | NavigableString _ => None
  | Tag _ attrs _ => attrs !! key
  end.

(** The [key] attributes of the tags found by [find_all], in document
    order. *)
Definition found_values (name key : string) (pattern : regex) (root : node)
  : list string :=
  omap (λ n, attr n key) (find_all name key pattern root).

(** The image links discovered on a page, as a set. *)
Definition page_images (bs : node) : gset string :=
  list_to_set (found_values "a" "href" png_pattern bs).

(** The raw [href]s of the seed page's anchors that match the site's
    pattern. *)
Definition target_hrefs (site : Website) (bs : node) : list string :=
  found_values "a" "href" (target_pattern site) bs.

(** The URL fetched for a raw [href]. *)
Definition resolve (site : Website) (href : string) : string :=
  if absolute_url site then href else url site +:+ href.

(** The [href]s added to [visited] in a log, in order. *)
Definition visits (t : list event) : list string :=
  omap (λ e, match e with EvVisit h => Some h | _ => None end) t.

(** The URLs requested in a log, in order. *)
Definition gets (t : list event) : list string :=
  omap (λ e, match e with EvGet u _ => Some u | _ => None end) t.

(** The number of pauses in a log. *)
Definition sleeps (t : list event) : nat :=
  length (List.filter (λ e, match e with EvSleep _ => true | _ => false end) t).

(** The image links of the page carried by a response; nothing when the
    request failed. *)
Definition fetched_images (E : Env) (r : http_result) : gset string :=
  match r with
  | Resp resp => page_images (html_parser E (text resp))
  | Failed => ∅
  end.

(** The union of the image links of all pages fetched in a log. *)
Definition images_of_log (E : Env) (t : list event) : gset string :=
  ⋃ (map (λ e, match e with
               | EvGet _ r => fetched_images E r
               | _ => ∅
               end) t).

(** What [parse] prints for the page at [u] answered by [r]. *)
Definition prints (E : Env) (site : Website) (u : string) (r : http_result)
  : list event :=
  match r with
  | Resp resp =>
      let bs := html_parser E (text resp) in
      let title := safe_get E bs (title_tag site) in
      let body := safe_get E bs (body_tag site) in
      if negb (String.eqb title "") && negb (String.eqb body "")
      then [EvPrint (mkContent u title body (page_images bs))]
      else []
  | Failed => []
  end.

(** The pause taken when the counter reaches [count]. *)
Definition pause (count : nat) : list event :=
  if Nat.eqb (count mod 10) 0 then [EvSleep 1] else [].

(** The shape of the log written by the loop of [crawl]: [loop_trace V c
    hs t] relates the visited set [V] and the counter [c] at loop entry and
    the raw hrefs [hs] still to be processed to the events [t] that the
    loop appends. *)
Inductive loop_trace (E : Env) (site : Website)
  : gset string → nat → list string → list event → Prop :=
| loop_done V c : loop_trace E site V c [] []
| loop_skip V c h hs t :
    h ∈ V →
    loop_trace E site V (c + 1) hs t →
    loop_trace E site V c (h :: hs) (pause (c + 1) ++ t)
| loop_visit V c h hs r t :
    h ∉ V →
    loop_trace E site ({[h]} ∪ V) (c + 1) hs t →
    loop_trace E site V c (h :: hs)
      (EvVisit h :: EvGet (resolve site h) r
         :: prints E site (resolve site h) r ++ pause (c + 1) ++ t).

(** [visit_before_get site S t]: every request in [t] is for the
    resolved form of a raw href that is in [S] or was added to [visited]
    earlier in [t]. *)
Fixpoint visit_before_get (site : Website) (S : gset string) (t : list event)
  : Prop :=
  match t with
  | [] => True
  | EvVisit h :: t' => visit_before_get site ({[h]} ∪ S) t'
  | EvGet u _ :: t' =>
      (∃ h, h ∈ S ∧ u = resolve site h) ∧ visit_before_get site S t'
  | _ :: t' => visit_before_get site S t'
  end.

(** Image discovery as the specification words it: the [href]s that end
    in [.png]. *)
Definition ends_in_dot_png (h : string) : Prop :=
  ∃ p, h = p +:+ ".png".

(** A string occurs inside another one. *)
Definition contains (h sub : string) : Prop :=
  ∃ p q, h = p +:+ sub +:+ q.

(** ** Example pages and example environments *)

Module Examples.

Definition anchor (href : string) : node :=
  Tag "a" {[ "href" := href ]} [].

Definition elem (name txt : string) : node :=
  Tag name ∅ [NavigableString txt].

Definition document (contents : list node) : node :=
  Tag "[document]" ∅ contents.

(** A CSS engine that only knows type selectors. *)
Definition select_by_name (root : node) (selector : string) : list node :=
  List.filter
    (λ n, match n with
          | Tag nm _ _ => String.eqb nm selector
          | NavigableString _ => false
          end)
    (descendants root).

(** A parser for the few page sources used below: the source text names
    the page. *)
Definition seed_ten_same : node :=
  document (repeat (anchor "a") 10).

Definition article : node :=
  document [elem "h2" "Title"; elem "p" "Body"; anchor "pic.png"].

Definition pages (src : string) : node :=
  if String.eqb src "seed" then seed_ten_same
  else if String.eqb src "article" then article
  else document [].

Definition ok (body : string) : http_result :=
  Resp (mkResponse 200 body body).

(** A network where the seed URL serves the seed page and every other
    URL serves the article. *)
Definition net_ok (_ : list event) (u : string) : http_result :=
  if String.eqb u "http://seed/" then ok "seed" else ok "article".

Definition env_ok : Env :=
  mkEnv net_ok (λ _ _, true) pages select_by_name.

Definition site_h2_p : Website :=
  mkWebsite "example" "http://seed/" (lit ["a"%char]) true "h2" "p".

(** The same site with relative links. *)
Definition site_relative : Website :=
  mkWebsite "example" "http://seed/" (lit ["a"%char]) false "h2" "p".

Definition fresh : World := mkWorld ∅ ∅ [].

(** A network that is down. *)
Definition env_down : Env :=
  mkEnv (λ _ _, Failed) (λ _ _, true) pages select_by_name.



(** A network where one image cannot be fetched. *)
Definition net_one_broken (_ : list event) (u : string) : http_result :=
  if String.eqb u "a.png" then Failed else ok "bytes".

Definition env_one_broken : Env :=
  mkEnv net_one_broken (λ _ _, true) pages select_by_name.

(** A crawler that has collected two images, and one that has collected
    a single image. *)
Definition two_images : World := mkWorld ∅ {[ "a.png"; "b.png" ]} [].

Definition one_image : World := mkWorld ∅ {[ "pic.png" ]} [].

(** A seed page that links to itself, served at every URL. *)
Definition seed_self_link : node :=
  document [anchor "http://seed/"].

Definition env_self_link : Env :=
  mkEnv (λ _ _, ok "self") (λ _ _, true) (λ _, seed_self_link) select_by_name.

Definition site_self_link : Website :=
  mkWebsite "example" "http://seed/" (lit ["s"; "e"; "e"; "d"]%char) true
            "h2" "p".

(** A page whose only anchor points into a directory called [pngs]. *)
Definition page_pngs_dir : node :=
  document [anchor "pngs/index.html"].

End Examples.

(** ** The rest of the crawler module *)

(** [Content.print]: the four lines written to standard output. *)
Definition Content_print (c : Content) : list string :=
  ["URL: " +:+ c_url c;
   "TITLE: " +:+ c_title c;
   "BODY: " +:+ c_body c;
   "IMAGE: " +:+ str_of_nat (size (c_img c))].

(** The contents printed in a log, in order. *)
Definition printed (t : list event) : list Content :=
  omap (λ e, match e with EvPrint c => Some c | _ => None end) t.

(** The files written in a log, with their bytes, in order. *)
Definition writes (t : list event) : list (string * string) :=
  omap (λ e, match e with EvWrite f b => Some (f, b) | _ => None end) t.


(** The hrefs of [hs] that are not in [V], each at its first occurrence. *)
Fixpoint new_hrefs (V : gset string) (hs : list string) : list string :=
  match hs with
  | [] => []
  | h :: hs' =>
      if decide (h ∈ V) then new_hrefs V hs'
      else h :: new_hrefs ({[h]} ∪ V) hs'
  end.

(** The file of the image with index [i]. *)
Definition image_file (save_dir : string) (i : nat) : string :=
  os_path_join save_dir (str_of_nat i +:+ ".png").

(** The pause taken after the download with index [i]. *)
Definition pause_after_download (i : nat) : list event :=
  if Nat.eqb (i mod 10) 0 then [EvSleep 1] else [].

(** The shape of the log written by the loop of [img_download] when every
    request is answered: [download_trace save_dir i paths t] relates the
    index at loop entry and the images still to be fetched to the events
    that the loop appends. *)
Inductive download_trace (save_dir : string)
  : nat → list string → list event → Prop :=
| download_done i : download_trace save_dir i [] []
| download_step i p ps r t :
    download_trace save_dir (S i) ps t →
    download_trace save_dir i (p :: ps)
      (EvGet p (Resp r) :: EvWrite (image_file save_dir i) (content r)
         :: pause_after_download i ++ t).

(** [Crawler(site)]: a new crawler starts with empty sets. *)
Definition Crawler_init : M unit :=
  λ w, (Returns tt, mkWorld ∅ ∅ (log w)).

(** The script at the end of the module. *)
Module Main.

Definition save_dir : string := "../data/".

Definition idol_list : list string :=
  ["haruka"; "chihaya"; "miki"; "yukiho"; "yayoi"; "makoto";
   "iori"; "takane"; "ritsuko"; "azusa"; "ami"; "mami"; "hibiki";
   "mirai"; "shizuka"; "tsubasa"; "kotoha"; "elena"; "minako";
   "megumi"; "matsuri"; "serika"; "akane"; "anna"; "roco";
   "yuriko"; "sayoko"; "arisa"; "umi"; "iku"; "tomoka"; "emily";
   "shiho"; "ayumu"; "hinata"; "kana"; "nao"; "chizuru"; "konomi";
   "tamaki"; "fuka"; "miya"; "noriko"; "mizuki"; "karen"; "rio";
   "subaru"; "reika"; "momoko"; "julia"; "tsumugi"; "kaori";
   "kotori"; "misaki"; "shika"; "reon"; "frederica"; "shiki"].

Definition root : string := "https://imas.gamedbs.jp/mlth/".

Definition base_tag : string :=
  "#contents-main > section > section > article.d1_3 > ".

Definition title_tag : string := base_tag +:+ "h2".

Definition body_tag : string :=
  base_tag +:+ "div:nth-child(3) > ul > li:nth-child(2)".

(** The text [chara/show/{i}/]. *)
Definition chara_show (i : nat) : string :=
  "chara/show/" +:+ str_of_nat i +:+ "/".

(** The site of the idol with number [i].  Its pattern is the group
    [(chara/show/{i}/)], which holds literal characters only. *)
Definition million_theater_db (i : nat) : Website :=
  mkWebsite "ミリシタDB" (root +:+ chara_show i)
            (lit (list_ascii_of_string (chara_show i)))
            true title_tag body_tag.

(** [enumerate(l, start)]. *)
Fixpoint enumerate {A} (l : list A) (start : nat) : list (nat * A) :=
  match l with
  | [] => []
  | x :: l' => (start, x) :: enumerate l' (S start)
  end.

(** One iteration of the loop of the script. *)
Definition main_body (E : Env) (i : nat) (name : string) : M unit :=
  let million_theater_db := million_theater_db i in
  Crawler_init >>
  crawl E million_theater_db >>
  img_download E (os_path_join save_dir name).

Fixpoint main_loop (E : Env) (idols : list (nat * string)) : M unit :=
  match idols with
  | [] => ret tt
  | (i, name) :: rest => main_body E i name >> main_loop E rest
  end.

Definition main (E : Env) : M unit :=
  main_loop E (enumerate idol_list 1).

End Main.

(** ** [tools/arisa/src/scraping.py] *)

Module Scraping.

(** What [urllib.request.urlopen] does with a URL: it hands back the body
    of the page, raises [HTTPError] when the server answers with an error
    status, or raises [URLError] when the server cannot be reached.  The
    text carried by an error is what [print(e)] shows. *)
Inductive urlopen_result : Type :=
| Opened (body : string)
| HTTPError (msg : string)
| URLError (msg : string).

Record Urllib : Type := mkUrllib {
  urlopen : string → urlopen_result;
  parse_html : string → node
}.

(** The exceptions that leave the functions of this module. *)
Inductive raised : Type :=
| RaisedHTTPError (msg : string)
| RaisedURLError (msg : string)
| RaisedBuiltin (e : exn).

Inductive result (A : Type) : Type :=
| Ret (a : A)
| Raise (e : raised).
Arguments Ret {A} a.
Arguments Raise {A} e.

Definition is_tag (name : string) (n : node) : bool :=
  match n with
  | NavigableString _ => false
  | Tag nm _ _ => String.eqb nm name
  end.

(** [tag.find(name)], which is also what [tag.name] stands for: the first
    element with that name below the tag, if any. *)
Definition find (name : string) (root : node) : option node :=
  head (List.filter (is_tag name) (descendants root)).

(** The text of the [AttributeError] raised by [None.h1]. *)
Definition no_attribute_h1 : string :=
  "'NoneType' object has no attribute 'h1'".

(** [get_title]: the value returned or the exception raised, and the lines
    printed. *)
Definition get_title (U : Urllib) (url : string)
  : result (option node) * list string :=
  match urlopen U url with
  | HTTPError e => (Ret None, [e])
  | URLError e => (Raise (RaisedURLError e), [])
  | Opened html =>
      let bs := parse_html U html in
      match find "body" bs with
      | None => (Ret None, [no_attribute_h1])
      | Some body => (Ret (find "h1" body), [])
      end
  end.

(** The pattern [.*{idol}.*], where [idol] is the pattern that the text
    of the argument denotes: [lit w] for a name [w] without special
    characters, [Eps] for the default [''].  *)
Definition idol_pattern (idol : regex) : regex :=
  Cat (Star Dot) (Cat idol (Star Dot)).

(** [get_idol_links]. *)
Definition get_idol_links (U : Urllib) (url : string) (idol : regex)
  : result (list string) :=
  match urlopen U url with
  | HTTPError e => Raise (RaisedHTTPError e)
  | URLError e => Raise (RaisedURLError e)
  | Opened html =>
      let bs := parse_html U html in
      let results := find_all "a" "title" (idol_pattern idol) bs in
      match attrs_of results "href" with
      | Returns links => Ret links
      | Raises e => Raise (RaisedBuiltin e)
      end
  end.

(** Pages and servers for the examples. *)
Definition titled_anchor (title href : string) : node :=
  Tag "a" {[ "title" := title; "href" := href ]} [].

Definition front_page : node :=
  Tag "[document]" ∅
    [Tag "html" ∅
       [Tag "body" ∅
          [Tag "div" ∅ [Tag "h1" ∅ [NavigableString "Login"]];
           titled_anchor "Tsumugi Shiraishi" "chara/show/51";
           titled_anchor "Kaori Sakuramori" "chara/show/52"]]].

Definition serve_front_page : Urllib :=
  mkUrllib (λ _, Opened "front") (λ _, front_page).


Definition unreachable : Urllib :=
  mkUrllib (λ _, URLError "<urlopen error>") (λ _, front_page).

End Scraping.

(** ** [analysis/tsumugi/comm_network.py]: the co-starring graph *)

Module CommNetwork.

Inductive error : Type :=
| IndexError
| KeyError
| NetworkXError.

Inductive result (A : Type) : Type :=
| Ok (a : A)
| Err (e : error).
Arguments Ok {A} a.
Arguments Err {A} e.

(** An undirected [networkx.Graph]: the attributes of each node and, for
    each node, its neighbours with the weight of the edge.  The data of an
    edge is one dictionary reached from both ends; here both ends carry
    the weight and every update writes both. *)
Record Graph : Type := mkGraph {
  g_node : gmap string (gmap string string);
  g_adj : gmap string (gmap string nat)
}.

(** [nx.Graph()]. *)
Definition empty_graph : Graph := mkGraph ∅ ∅.

(** The weight of the edge between [u] and [v], if there is one. *)
Definition weight (G : Graph) (u v : string) : option nat :=
  g_adj G !! u ≫= (λ nbrs, nbrs !! v).

(** [G.add_node(n)]. *)
Definition add_node (n : string) (G : Graph) : Graph :=
  match g_node G !! n with
  | Some _ => G
  | None => mkGraph (<[n := ∅]> (g_node G)) (<[n := ∅]> (g_adj G))
  end.

(** [G.has_edge(u, v)]. *)
Definition has_edge (u v : string) (G : Graph) : bool :=
  match g_adj G !! u with
  | Some nbrs => bool_decide (is_Some (nbrs !! v))
  | None => false
  end.

(** [self._adj[u][v] = w]. *)
Definition set_adj (u v : string) (w : nat) (a : gmap string (gmap string nat))
  : gmap string (gmap string nat) :=
  <[u := <[v := w]> (default ∅ (a !! u))]> a.

(** [G.add_edge(u, v, weight=w)]. *)
Definition add_edge (u v : string) (w : nat) (G : Graph) : Graph :=
  let G := add_node u G in
  let G := add_node v G in
  mkGraph (g_node G) (set_adj v u w (set_adj u v w (g_adj G))).

(** [G.edges[u, v]['weight'] += 1].  The dictionary is reached from both
    ends, so that a loop from a node to itself is counted up once. *)
Definition incr_weight (u v : string) (G : Graph) : result Graph :=
  match weight G u v with
  | None => Err KeyError
  | Some w =>
      let a := set_adj u v (w + 1) (g_adj G) in
      Ok (mkGraph (g_node G) (if decide (u = v) then a else set_adj v u (w + 1) a))
  end.

(** [del self._adj[u][v]]. *)
Definition del_adj (u v : string) (a : gmap string (gmap string nat))
  : gmap string (gmap string nat) :=
  <[u := delete v (default ∅ (a !! u))]> a.

(** [G.remove_edge(u, v)]. *)
Definition remove_edge (u v : string) (G : Graph) : result Graph :=
  match weight G u v with
  | None => Err NetworkXError
  | Some _ =>
      let a := del_adj u v (g_adj G) in
      Ok (mkGraph (g_node G) (if decide (u = v) then a else del_adj v u a))
  end.

(** [list(G.edges(data=True))]: every edge once, seen from the end that
    comes first in the enumeration of the nodes. *)
Fixpoint edges_from (ns : list (string * gmap string nat)) (seen : gset string)
  : list (string * string * nat) :=
  match ns with
  | [] => []
  | (n, nbrs) :: rest =>
      ((λ '(nbr, w), (n, nbr, w)) <$>
         List.filter (λ '(nbr, _), bool_decide (nbr ∉ seen)) (map_to_list nbrs))
      ++ edges_from rest ({[n]} ∪ seen)
  end.

Definition edges (G : Graph) : list (string * string * nat) :=
  edges_from (map_to_list (g_adj G)) ∅.

(** [colorize]. *)
Definition colorize (graph : Graph) (node_name node_color font_color : string)
  : result Graph :=
  match g_node graph !! node_name with
  | None => Err KeyError
  | Some attrs =>
      let attrs := <["color" := node_color]> attrs in
      let attrs := <["styled" := "filled"]> attrs in
      let attrs := <["fillcolor" := node_color]> attrs in
      let attrs := <["fontcolor" := font_color]> attrs in
      Ok (mkGraph (<[node_name := attrs]> (g_node graph)) (g_adj graph))
  end.

(** The class [[a-zA-Z]]. *)
Definition ascii_letters : list ascii :=
  list_ascii_of_string "abcdefghijklmnopqrstuvwxyzABCDEFGHIJKLMNOPQRSTUVWXYZ".

Definition char_class (cs : list ascii) : regex :=
  fold_right (λ c r, Alt (Chr c) r) Void cs.

(** [re.match('[a-zA-Z]', s)]. *)
Definition starts_with_letter (s : string) : bool :=
  prefix_match (char_class ascii_letters) (list_ascii_of_string s).

(** [list(set(sum(rows, [])))]. *)
Definition characters (rows : list (list string)) : list string :=
  elements (list_to_set (concat rows) : gset string).

(** The loop that creates the nodes. *)
Definition add_characters (rows : list (list string)) (G : Graph) : Graph :=
  foldl (λ G character,
           if starts_with_letter character then G else add_node character G)
        G (characters rows).

(** The loop that lists the edges: a pair for the centre of a row and each
    of its co-stars.  [row[0]] raises [IndexError] on an empty row. *)
Fixpoint edge_list (rows : list (list string))
  : result (list (string * string)) :=
  match rows with
  | [] => Ok []
  | row :: rest =>
      match row with
      | [] => Err IndexError
      | center :: co_stars =>
          if starts_with_letter center then edge_list rest
          else
            match edge_list rest with
            | Ok es => Ok ((pair center <$> co_stars) ++ es)
            | Err e => Err e
            end
      end
  end.

(** The loop that creates the edges and counts them. *)
Fixpoint add_edges (es : list (string * string)) (G : Graph) : result Graph :=
  match es with
  | [] => Ok G
  | (node_a, node_b) :: rest =>
      if has_edge node_a node_b G
      then
        match incr_weight node_a node_b G with
        | Ok G' => add_edges rest G'
        | Err e => Err e
        end
      else add_edges rest (add_edge node_a node_b 1 G)
  end.

(** The script up to the graph with its weights. *)
Definition build (rows : list (list string)) : result Graph :=
  let G := add_characters rows empty_graph in
  match edge_list rows with
  | Ok es => add_edges es G
  | Err e => Err e
  end.

(** The pruning loop over [list(G.edges(data=True))]. *)
Fixpoint prune_loop (es : list (string * string * nat)) (G : Graph)
  : result Graph :=
  match es with
  | [] => Ok G
  | (u, v, d) :: rest =>
      if Nat.leb d 1
      then
        match remove_edge u v G with
        | Ok G' => prune_loop rest G'
        | Err e => Err e
        end
      else prune_loop rest G
  end.

Definition prune (G : Graph) : result Graph := prune_loop (edges G) G.

(** How often [a] and [b] stand together in a list of pairs, in either
    order. *)
Definition joins (a b : string) (e : string * string) : bool :=
  bool_decide (e = (a, b) ∨ e = (b, a)).

Definition co_starring (es : list (string * string)) (a b : string) : nat :=
  length (List.filter (joins a b) es).

(** A graph as [networkx] keeps it: the nodes are the keys of the
    adjacency, neighbours are nodes, and an edge has the same weight seen
    from both ends. *)
Definition well_formed (G : Graph) : Prop :=
  dom (g_node G) = dom (g_adj G)
  ∧ (∀ u v, is_Some (weight G u v) → v ∈ dom (g_adj G))
  ∧ (∀ u v, weight G u v = weight G v u).

(** The pairs of a centre that does not start with a letter and each of
    its co-stars, row by row. *)
Definition co_star_pairs (rows : list (list string))
  : list (string * string) :=
  rows ≫= (λ row,
    match row with
    | [] => []
    | center :: co_stars =>
        if starts_with_letter center then [] else pair center <$> co_stars
    end).

(** No two entries of a list of edges are the same edge, seen from the
    same end or from opposite ends. *)
Fixpoint distinct_edges (es : list (string * string * nat)) : Prop :=
  match es with
  | [] => True
  | (u, v, _) :: rest =>
      (∀ d, ((u, v, d) ∉ rest) ∧ ((v, u, d) ∉ rest)) ∧ distinct_edges rest
  end.

(** [G.edges[u, v]], here the weight it holds. *)
Definition edge_data (G : Graph) (u v : string) : result nat :=
  match weight G u v with
  | Some w => Ok w
  | None => Err KeyError
  end.

(** The script from the empty graph to the pruned graph: it builds the
    graph, prints the data of two edges and prunes.  The result holds
    the two weights printed and the pruned graph. *)
Definition script (rows : list (list string)) : result (nat * nat * Graph) :=
  match build rows with
  | Err e => Err e
  | Ok G =>
      match edge_data G "春日未来" "天海春香" with
      | Err e => Err e
      | Ok w1 =>
          match edge_data G "春日未来" "最上静香" with
          | Err e => Err e
          | Ok w2 =>
              match prune G with
              | Err e => Err e
              | Ok G' => Ok (w1, w2, G')
              end
          end
      end
  end.

(** Rows for the examples. *)
Definition example_rows : list (list string) :=
  [["春日未来"; "最上静香"; "伊吹翼"];
   ["最上静香"; "春日未来"];
   ["天海春香"; "春日未来"];
   ["Brand New Theater!"; "春日未来"; "最上静香"];
   ["春日未来"; "UNION!!"]].

End CommNetwork.

(** * Properties *)

(** ** Regular expressions: the matcher agrees with the language *)

Module ReFacts.

Lemma matches_cat_inv r1 r2 w :
  matches (Cat r1 r2) w → ∃ u v, w = u ++ v ∧ matches r1 u ∧ matches r2 v.
Proof. inversion 1; subst; eauto. Qed.

Lemma matches_alt_inv r1 r2 w :
  matches (Alt r1 r2) w → matches r1 w ∨ matches r2 w.
Proof. inversion 1; subst; eauto. Qed.

Lemma matches_nil_cat r1 r2 :
  matches (Cat r1 r2) [] → matches r1 [] ∧ matches r2 [].
Proof.
  intros (u & v & Heq & Hu & Hv)%matches_cat_inv.
  destruct u, v; try discriminate. done.
Qed.

Lemma nullable_spec r : nullable r = true ↔ matches r [].
Proof.
  induction r as [| |c| |r1 IH1 r2 IH2|r1 IH1 r2 IH2|r IH]; simpl.
  - split; [done|inversion 1].
  - split; [constructor|done].
  - split; [done|inversion 1].
  - split; [done|inversion 1].
  - rewrite andb_true_iff, IH1, IH2. split.
    + intros [H1 H2]. by apply (m_cat _ _ [] []).
    + apply matches_nil_cat.
  - rewrite orb_true_iff, IH1, IH2. split.
    + intros [H|H]; [by apply m_alt_l|by apply m_alt_r].
    + intros [H|H]%matches_alt_inv; auto.
  - split; [constructor|done].
Qed.

(** A non-empty word of [Star r] starts with a non-empty word of [r]. *)
Lemma matches_star_cons r c s :
  matches (Star r) (c :: s) →
  ∃ u v, s = u ++ v ∧ matches r (c :: u) ∧ matches (Star r) v.
Proof.
  intros H. remember (Star r) as r' eqn:Hr. remember (c :: s) as w eqn:Hw.
  revert c s Hw.
  induction H as [| | | | | | |r0 u v Hu _ Hv IHv]; intros a t Hw;
    try discriminate.
  injection Hr as ->. destruct u as [|a' u]; simpl in Hw.
  - by apply IHv.
  - injection Hw as -> <-. eauto.
Qed.

Lemma deriv_spec c r s : matches (deriv c r) s ↔ matches r (c :: s).
Proof.
  revert s.
  induction r as [| |d| |r1 IH1 r2 IH2|r1 IH1 r2 IH2|r IH]; intros s; simpl.
  - split; inversion 1.
  - split; inversion 1.
  - destruct (Ascii.eqb_spec c d) as [->|Hne].
    + split; inversion 1; subst; constructor.
    + split; inversion 1; subst; congruence.
  - destruct (is_newline c) eqn:Hc.
    + split; inversion 1; subst; congruence.
    + split; inversion 1; subst; by constructor.
  - assert (Hcat : matches (Cat (deriv c r1) r2) s →
                   matches (Cat r1 r2) (c :: s)).
    { intros (u & v & -> & Hu & Hv)%matches_cat_inv.
      apply IH1 in Hu. by apply (m_cat _ _ (c :: u) v). }
    assert (Hinv : matches (Cat r1 r2) (c :: s) →
                   matches (Cat (deriv c r1) r2) s ∨
                   (matches r1 [] ∧ matches (deriv c r2) s)).
    { intros (u & v & Heq & Hu & Hv)%matches_cat_inv.
      destruct u as [|c' u]; simpl in Heq.
      - subst v. right. split; [done|by apply IH2].
      - injection Heq as <- ->. left. constructor; [by apply IH1|done]. }
    destruct (nullable r1) eqn:Hn.
    + split.
      * intros [H|H]%matches_alt_inv; [by apply Hcat|].
        apply (m_cat _ _ [] (c :: s)); [by apply nullable_spec|by apply IH2].
      * intros H. destruct (Hinv H) as [H'|[_ H']];
          [by apply m_alt_l|by apply m_alt_r].
    + split; [apply Hcat|].
      intros H. destruct (Hinv H) as [H'|[H' _]]; [done|].
      apply nullable_spec in H'. congruence.
  - split.
    + intros [H|H]%matches_alt_inv;
        [apply m_alt_l; by apply IH1|apply m_alt_r; by apply IH2].
    + intros [H|H]%matches_alt_inv;
        [apply m_alt_l; by apply IH1|apply m_alt_r; by apply IH2].
  - split.
    + intros (u & v & -> & Hu & Hv)%matches_cat_inv.
      apply IH in Hu. by apply (m_star_cons _ (c :: u) v).
    + intros H. apply matches_star_cons in H as (u & v & -> & Hu & Hv).
      constructor; [by apply IH|done].
Qed.

Lemma prefix_match_spec r s :
  prefix_match r s = true ↔ ∃ u v, s = u ++ v ∧ matches r u.
Proof.
  revert r. induction s as [|c s IH]; intros r; simpl.
  - rewrite orb_false_r, nullable_spec. split.
    + intros H. by exists [], [].
    + intros (u & v & Heq & H). symmetry in Heq.
      apply app_eq_nil in Heq as [-> _]. done.
  - rewrite orb_true_iff, nullable_spec, IH. split.
    + intros [H|(u & v & -> & H)].
      * by exists [], (c :: s).
      * exists (c :: u), v. split; [done|by apply deriv_spec].
    + intros ([|c' u] & v & Heq & H); [by left|right].
      simpl in Heq. injection Heq as <- ->.
      exists u, v. split; [done|by apply deriv_spec].
Qed.

Lemma search_from_spec r s :
  search_from r s = true ↔ ∃ p u v, s = p ++ u ++ v ∧ matches r u.
Proof.
  induction s as [|c s IH]; cbn [search_from].
  - rewrite orb_false_r, prefix_match_spec. split.
    + intros (u & v & -> & H). by exists [], u, v.
    + intros (p & u & v & Heq & H). symmetry in Heq.
      apply app_eq_nil in Heq as [-> Heq]. eauto.
  - rewrite orb_true_iff, prefix_match_spec, IH. split.
    + intros [(u & v & -> & H)|(p & u & v & -> & H)].
      * by exists [], u, v.
      * by exists (c :: p), u, v.
    + intros ([|c' p] & u & v & Heq & H); simpl in Heq.
      * left. eauto.
      * injection Heq as <- ->. right. eauto.
Qed.

Lemma matches_lit w u : matches (lit w) u ↔ u = w.
Proof.
  revert u. induction w as [|c w IH]; intros u; simpl.
  - split; [by inversion 1|intros ->; constructor].
  - split.
    + intros (u1 & v1 & -> & Hu & Hv)%matches_cat_inv.
      inversion Hu; subst. apply IH in Hv as ->. done.
    + intros ->. apply (m_cat _ _ [c] w); [constructor|by apply IH].
Qed.

End ReFacts.

(** ** Strings *)

Lemma append_cons c a b : String c a +:+ b = String c (a +:+ b).
Proof. reflexivity. Qed.

Lemma append_nil_l b : "" +:+ b = b.
Proof. reflexivity. Qed.

Lemma list_ascii_of_append a b :
  list_ascii_of_string (a +:+ b)
  = list_ascii_of_string a ++ list_ascii_of_string b.
Proof.
  induction a as [|c a IH]; [done|].
  rewrite append_cons. simpl. by rewrite IH.
Qed.

Lemma string_of_list_ascii_app l1 l2 :
  string_of_list_ascii (l1 ++ l2)
  = string_of_list_ascii l1 +:+ string_of_list_ascii l2.
Proof.
  induction l1 as [|c l1 IH]; [done|].
  simpl. by rewrite IH, append_cons.
Qed.

Lemma endswith_spec s suffix :
  endswith s suffix = true ↔ ∃ p, s = p +:+ suffix.
Proof.
  induction s as [|c s IH]; cbn [endswith].
  - rewrite orb_false_r, String.eqb_eq. split.
    + intros <-. by exists "".
    + intros ([|c p] & Hp); [done|]. rewrite append_cons in Hp. discriminate.
  - rewrite orb_true_iff, String.eqb_eq, IH. split.
    + intros [<-|(p & ->)]; [by exists ""|].
      exists (String c p). by rewrite append_cons.
    + intros ([|c' p] & Hp); [by left|right].
      rewrite append_cons in Hp. injection Hp as <- ->. eauto.
Qed.

(** Searching with [.*png] finds exactly the strings that contain
    [png]. *)
Lemma png_search_spec s :
  re_search png_pattern s = true ↔ contains s "png".
Proof.
  unfold re_search, contains, png_pattern.
  rewrite ReFacts.search_from_spec. split.
  - intros (p & u & v & Heq & Hu).
    apply ReFacts.matches_cat_inv in Hu as (t & w & -> & _ & Hw).
    apply ReFacts.matches_lit in Hw as ->.
    exists (string_of_list_ascii (p ++ t)), (string_of_list_ascii v).
    rewrite <- (string_of_list_ascii_of_string s), Heq.
    rewrite <- (assoc_L (++) t), (assoc_L (++) p t).
    by rewrite !string_of_list_ascii_app.
  - intros (p & q & ->).
    exists (list_ascii_of_string p), ["p"; "n"; "g"]%char,
      (list_ascii_of_string q).
    split; [by rewrite !list_ascii_of_append|].
    apply (m_cat _ _ [] ["p"; "n"; "g"]%char); [constructor|].
    by apply ReFacts.matches_lit.
Qed.

(** ** Documents *)

Lemma tag_matches_attr name key pattern n :
  tag_matches name key pattern n = true →
  ∃ v, attrs_getitem n key = Returns v ∧ attr n key = Some v.
Proof.
  destruct n as [s|nm attrs cs]; simpl; [done|].
  rewrite andb_true_iff. intros [_ H].
  destruct (attrs !! key) as [v|]; [eauto|done].
Qed.

(** The comprehension over the result of [find_all] never raises. *)
Lemma attrs_of_find_all name key pattern root :
  attrs_of (find_all name key pattern root) key
  = Returns (found_values name key pattern root).
Proof.
  unfold found_values, find_all.
  induction (descendants root) as [|n l IH]; simpl; [done|].
  destruct (tag_matches name key pattern n) eqn:Hn; [|done].
  apply tag_matches_attr in Hn as (v & Hget & Hattr).
  simpl. by rewrite Hget, IH, Hattr.
Qed.

Lemma elem_of_found_values name key pattern root v :
  v ∈ found_values name key pattern root ↔
  ∃ attrs cs, Tag name attrs cs ∈ descendants root
              ∧ attrs !! key = Some v ∧ re_search pattern v = true.
Proof.
  unfold found_values, find_all. rewrite list_elem_of_omap. split.
  - intros (n & Hn & Hv).
    apply list_elem_of_In, filter_In in Hn as [Hn Hm].
    apply list_elem_of_In in Hn.
    destruct n as [s|nm attrs cs]; simpl in *; [done|].
    apply andb_true_iff in Hm as [->%String.eqb_eq Hm].
    rewrite Hv in Hm. eauto.
  - intros (attrs & cs & Hin & Hv & Hm).
    exists (Tag name attrs cs). split; [|done].
    apply list_elem_of_In, filter_In. split; [by apply list_elem_of_In|].
    simpl. by rewrite String.eqb_refl, Hv.
Qed.

(** ** Logs *)

Lemma visits_app t1 t2 : visits (t1 ++ t2) = visits t1 ++ visits t2.
Proof. apply omap_app. Qed.

Lemma gets_app t1 t2 : gets (t1 ++ t2) = gets t1 ++ gets t2.
Proof. apply omap_app. Qed.

Lemma sleeps_app t1 t2 : sleeps (t1 ++ t2) = sleeps t1 + sleeps t2.
Proof. unfold sleeps. by rewrite List.filter_app, length_app. Qed.

Lemma images_of_log_app E t1 t2 :
  images_of_log E (t1 ++ t2) = images_of_log E t1 ∪ images_of_log E t2.
Proof. unfold images_of_log. by rewrite map_app, union_list_app_L. Qed.

Lemma images_of_log_nil E : images_of_log E [] = ∅.
Proof. reflexivity. Qed.

Lemma images_of_log_cons E e t :
  images_of_log E (e :: t)
  = match e with EvGet _ r => fetched_images E r | _ => ∅ end
    ∪ images_of_log E t.
Proof. reflexivity. Qed.

Lemma world_eq V V' I I' l l' :
  V = V' → I = I' → l = l' → mkWorld V I l = mkWorld V' I' l'.
Proof. by intros -> -> ->. Qed.

Lemma visits_visit_get h u r t :
  visits (EvVisit h :: EvGet u r :: t) = h :: visits t.
Proof. reflexivity. Qed.

Lemma gets_visit_get h u r t :
  gets (EvVisit h :: EvGet u r :: t) = u :: gets t.
Proof. reflexivity. Qed.

Lemma sleeps_visit_get h u r t :
  sleeps (EvVisit h :: EvGet u r :: t) = sleeps t.
Proof. reflexivity. Qed.

Lemma visits_pause c : visits (pause c) = [].
Proof. unfold pause. by destruct (_ =? _)%nat. Qed.

Lemma gets_pause c : gets (pause c) = [].
Proof. unfold pause. by destruct (_ =? _)%nat. Qed.

Lemma images_of_log_pause E c : images_of_log E (pause c) = ∅.
Proof.
  unfold pause, images_of_log. destruct (_ =? _)%nat; simpl; [|done].
  set_solver.
Qed.

Lemma visits_prints E site u r : visits (prints E site u r) = [].
Proof. unfold prints. destruct r; [|done]. by destruct (_ && _). Qed.

Lemma gets_prints E site u r : gets (prints E site u r) = [].
Proof. unfold prints. destruct r; [|done]. by destruct (_ && _). Qed.

Lemma sleeps_prints E site u r : sleeps (prints E site u r) = 0.
Proof. unfold prints. destruct r; [|done]. by destruct (_ && _). Qed.

Lemma images_of_log_prints E site u r :
  images_of_log E (prints E site u r) = ∅.
Proof.
  unfold prints, images_of_log. destruct r; [|done].
  destruct (_ && _); simpl; [|done]. set_solver.
Qed.

(** Events other than requests and visits do not matter for the order of
    visits and requests. *)
Lemma visit_before_get_quiet site S q t :
  gets q = [] → visits q = [] →
  visit_before_get site S t → visit_before_get site S (q ++ t).
Proof.
  induction q as [|e q IH]; [done|].
  destruct e; simpl; try done; auto.
Qed.

Lemma visit_before_get_split site S t t1 t2 u r :
  visit_before_get site S t →
  t = t1 ++ EvGet u r :: t2 →
  ∃ h, u = resolve site h ∧ (h ∈ S ∨ EvVisit h ∈ t1).
Proof.
  revert S t. induction t1 as [|e t1 IH]; intros S t Ht ->; simpl in Ht.
  - destruct Ht as [(h & Hh & ->) _]. eauto.
  - assert (Hrest : ∃ h, u = resolve site h
                         ∧ ((h ∈ S ∨ EvVisit h = e) ∨ EvVisit h ∈ t1)).
    { destruct e as [u' r'|h'| | | |]; simpl in Ht;
        try (destruct (IH _ _ Ht eq_refl) as (h & Hu & [Hh|Hh]); by eauto 6).
      - destruct Ht as [_ Ht].
        destruct (IH _ _ Ht eq_refl) as (h & Hu & [Hh|Hh]); eauto 6.
      - destruct (IH _ _ Ht eq_refl) as (h & Hu & [Hh|Hh]); [|eauto 6].
        apply elem_of_union in Hh as [Hh%elem_of_singleton|Hh];
          [subst h'|]; eauto 6. }
    destruct Hrest as (h & Hu & [[Hh|Hh]|Hh]); exists h; (split; [done|]).
    + by left.
    + right. subst e. apply list_elem_of_here.
    + right. by apply list_elem_of_further.
Qed.

(** ** What each function of the crawler does to the world *)

Section Runs.

Variable E : Env.
Variable site : Website.

Lemma requests_get_run u w :
  requests_get E u w
  = (match net E (log w) u with
     | Resp resp => Returns resp
     | Failed => Raises RequestException
     end,
     mkWorld (visited w) (images_path w)
             (log w ++ [EvGet u (net E (log w) u)])).
Proof. unfold requests_get. by destruct (net E (log w) u). Qed.

Lemma get_page_run u w :
  get_page E u w
  = (Returns (match net E (log w) u with
              | Resp resp => Some (html_parser E (text resp))
              | Failed => None
              end),
     mkWorld (visited w) (images_path w)
             (log w ++ [EvGet u (net E (log w) u)])).
Proof.
  unfold get_page, bind, try_except. rewrite requests_get_run.
  by destruct (net E (log w) u).
Qed.

Lemma parse_run u w :
  let r := net E (log w) u in
  parse E site u w
  = (Returns tt,
     mkWorld (visited w) (images_path w ∪ fetched_images E r)
             (log w ++ EvGet u r :: prints E site u r)).
Proof.
  unfold parse, bind at 1. rewrite get_page_run.
  destruct (net E (log w) u) as [resp|]; simpl.
  - unfold bind, lift, img_obj. rewrite attrs_of_find_all.
    unfold images_path_update, page_images. simpl.
    destruct (_ && _); unfold emit, ret; simpl; by rewrite <- ?app_assoc.
  - unfold ret. by rewrite (right_id_L ∅ (∪)).
Qed.

Lemma crawl_body_run target_page h count w :
  attrs_getitem target_page "href" = Returns h →
  crawl_body E site target_page count w
  = (Returns (count + 1),
     if decide (h ∉ visited w)
     then
       let r := net E (log w ++ [EvVisit h]) (resolve site h) in
       mkWorld ({[h]} ∪ visited w) (images_path w ∪ fetched_images E r)
               (log w ++ EvVisit h :: EvGet (resolve site h) r
                  :: prints E site (resolve site h) r ++ pause (count + 1))
     else
       mkWorld (visited w) (images_path w) (log w ++ pause (count + 1))).
Proof.
  intros Hh. unfold crawl_body, bind at 1, lift. rewrite Hh.
  unfold bind at 1, get_visited. unfold bind at 1.
  destruct (decide (h ∉ visited w)) as [Hnew|Hold].
  - unfold bind at 1, visited_add.
    fold (resolve site h). rewrite parse_run. simpl.
    unfold bind, time_sleep, pause, emit, ret.
    destruct (_ =? _)%nat; simpl; f_equal; f_equal;
      rewrite <- ?app_assoc; simpl; by rewrite ?app_nil_r.
  - unfold bind, ret, time_sleep, pause, emit.
    destruct (_ =? _)%nat; simpl; [done|].
    destruct w; simpl. by rewrite app_nil_r.
Qed.

(** The loop of [crawl] over the tags whose hrefs are [hs]. *)
Lemma crawl_loop_run target_pages hs count w :
  attrs_of target_pages "href" = Returns hs →
  ∃ t,
    crawl_loop E site target_pages count w
    = (Returns (count + length hs),
       mkWorld (list_to_set hs ∪ visited w)
               (images_path w ∪ images_of_log E t)
               (log w ++ t))
    ∧ loop_trace E site (visited w) count hs t.
Proof.
  revert hs count w.
  induction target_pages as [|tp tps IH]; intros hs count w Hhs; simpl in Hhs.
  - injection Hhs as <-. exists []. split; [|constructor].
    simpl. unfold ret. destruct w as [V I l]; simpl.
    rewrite app_nil_r, Nat.add_0_r. f_equal.
    rewrite images_of_log_nil. apply world_eq; [set_solver|set_solver|done].
  - destruct (attrs_getitem tp "href") as [h|] eqn:Hh; [|done].
    destruct (attrs_of tps "href") as [hs'|] eqn:Hhs'; [|done].
    injection Hhs as <-.
    simpl. unfold bind at 1. rewrite (crawl_body_run _ _ _ _ Hh).
    destruct (decide (h ∉ visited w)) as [Hnew|Hold].
    + set (r := net E (log w ++ [EvVisit h]) (resolve site h)).
      destruct (IH _ (count + 1) (mkWorld ({[h]} ∪ visited w)
        (images_path w ∪ fetched_images E r)
        (log w ++ EvVisit h :: EvGet (resolve site h) r
           :: prints E site (resolve site h) r ++ pause (count + 1)))
        eq_refl) as (t & Hrun & Ht).
      simpl in Hrun, Ht.
      exists (EvVisit h :: EvGet (resolve site h) r
                :: prints E site (resolve site h) r ++ pause (count + 1) ++ t).
      split; [|by apply loop_visit].
      simpl. rewrite Hrun. f_equal; [f_equal; simpl; lia|].
      apply world_eq.
      * set_solver.
      * rewrite !images_of_log_cons, !images_of_log_app,
          images_of_log_prints, images_of_log_pause.
        set_solver.
      * rewrite <- app_assoc. simpl. by rewrite <- app_assoc.
    + destruct (IH _ (count + 1) (mkWorld (visited w) (images_path w)
        (log w ++ pause (count + 1))) eq_refl) as (t & Hrun & Ht).
      simpl in Hrun, Ht. apply dec_stable in Hold.
      exists (pause (count + 1) ++ t). split; [|by apply loop_skip].
      simpl. rewrite Hrun. f_equal; [f_equal; simpl; lia|].
      apply world_eq.
      * set_solver.
      * rewrite images_of_log_app, images_of_log_pause. set_solver.
      * by rewrite <- app_assoc.
Qed.

End Runs.

(** ** Consequences of the shape of the loop's log *)

Section LoopTrace.

Variable E : Env.
Variable site : Website.

(** Distinct raw hrefs are fetched from distinct URLs. *)
#[global] Instance resolve_inj : Inj (=) (=) (resolve site).
Proof.
  intros h1 h2. unfold resolve.
  destruct (absolute_url site); [done|]. apply String.app_inj.
Qed.

Lemma loop_trace_visits V c hs t :
  loop_trace E site V c hs t →
  NoDup (visits t) ∧ ∀ h, h ∈ visits t ↔ h ∈ hs ∧ h ∉ V.
Proof.
  induction 1 as [V c|V c h hs t Hin _ [IHnd IHin]|V c h hs r t Hnew _ [IHnd IHin]].
  - split; [constructor|]. intros h. simpl. set_solver.
  - rewrite visits_app, visits_pause. simpl. split; [done|].
    intros h'. rewrite IHin. set_solver.
  - rewrite visits_visit_get, !visits_app, visits_prints, visits_pause.
    simpl. split.
    + apply NoDup_cons. split; [|done]. rewrite IHin. set_solver.
    + intros h'. rewrite elem_of_cons, IHin.
      destruct (decide (h' = h)) as [->|Hne]; set_solver.
Qed.

Lemma loop_trace_gets V c hs t :
  loop_trace E site V c hs t → gets t = resolve site <$> visits t.
Proof.
  induction 1 as [V c|V c h hs t Hin _ IH|V c h hs r t Hnew _ IH].
  - done.
  - by rewrite visits_app, gets_app, visits_pause, gets_pause.
  - rewrite visits_visit_get, gets_visit_get, !visits_app, !gets_app,
      visits_prints, gets_prints, visits_pause, gets_pause.
    simpl. by rewrite IH.
Qed.

Lemma loop_trace_ordered V c hs t :
  loop_trace E site V c hs t → ∀ S, visit_before_get site S t.
Proof.
  induction 1 as [V c|V c h hs t Hin _ IH|V c h hs r t Hnew _ IH]; intros S.
  - done.
  - apply visit_before_get_quiet; auto using gets_pause, visits_pause.
  - simpl. split; [exists h; set_solver|].
    apply visit_before_get_quiet; auto using gets_prints, visits_prints.
    apply visit_before_get_quiet; auto using gets_pause, visits_pause.
Qed.

Lemma sleeps_pause c :
  sleeps (pause (c + 1)) = (c + 1) / 10 - c / 10.
Proof.
  pose proof (Nat.div_mod_eq (c + 1) 10) as H1.
  pose proof (Nat.div_mod_eq c 10) as H0.
  pose proof (Nat.mod_upper_bound c 10) as B0.
  pose proof (Nat.mod_upper_bound (c + 1) 10) as B1.
  unfold pause. revert H1 H0 B0 B1.
  generalize ((c + 1) / 10) ((c + 1) mod 10) (c / 10) (c mod 10).
  intros q1 r1 q0 r0 H1 H0 B0 B1.
  destruct (Nat.eqb_spec r1 0) as [H|H]; unfold sleeps; simpl; lia.
Qed.

Lemma sleeps_step c n :
  (c + 1) / 10 - c / 10 + ((c + 1 + n) / 10 - (c + 1) / 10)
  = (c + S n) / 10 - c / 10.
Proof.
  replace (c + S n) with (c + 1 + n) by lia.
  assert (c / 10 ≤ (c + 1) / 10)%nat by (apply Nat.Div0.div_le_mono; lia).
  assert ((c + 1) / 10 ≤ (c + 1 + n) / 10)%nat
    by (apply Nat.Div0.div_le_mono; lia).
  lia.
Qed.

(** The loop pauses once for every tenth anchor it walks over, whether or
    not the anchor was fetched. *)
Lemma loop_trace_sleeps V c hs t :
  loop_trace E site V c hs t → sleeps t = (c + length hs) / 10 - c / 10.
Proof.
  induction 1 as [V c|V c h hs t Hin _ IH|V c h hs r t Hnew _ IH].
  - cbn [length]. rewrite Nat.add_0_r. unfold sleeps. cbn [List.filter length]. lia.
  - rewrite sleeps_app, sleeps_pause, IH. cbn [length].
    by apply sleeps_step.
  - rewrite sleeps_visit_get, !sleeps_app, sleeps_prints, sleeps_pause, IH.
    cbn [length plus].
    by apply sleeps_step.
Qed.

End LoopTrace.

(** ** Whole runs *)

Section WholeRuns.

Variable E : Env.
Variable site : Website.

(** A run of [crawl] whose seed page was fetched. *)
Lemma crawl_run w r0 :
  net E (log w) (url site) = Resp r0 →
  let hs := target_hrefs site (html_parser E (text r0)) in
  ∃ t,
    crawl E site w
    = (Returns tt,
       mkWorld (list_to_set hs ∪ visited w)
               (images_path w ∪ images_of_log E t)
               (log w ++ EvGet (url site) (Resp r0) :: t))
    ∧ loop_trace E site (visited w) 0 hs t.
Proof.
  intros Hseed hs. unfold crawl, bind at 1. rewrite get_page_run, Hseed.
  unfold bind at 1, ret at 1. unfold bind at 1.
  destruct (crawl_loop_run E site
              (find_all "a" "href" (target_pattern site)
                 (html_parser E (text r0)))
              hs 0
              (mkWorld (visited w) (images_path w)
                       (log w ++ [EvGet (url site) (Resp r0)])))
    as (t & Hrun & Ht); [apply attrs_of_find_all|].
  exists t. split; [|done].
  rewrite Hrun. unfold ret. simpl. by rewrite <- app_assoc.
Qed.

(** A run of [crawl] whose seed page could not be fetched. *)
Lemma crawl_seed_failed w :
  net E (log w) (url site) = Failed →
  crawl E site w
  = (Raises AttributeError,
     mkWorld (visited w) (images_path w)
             (log w ++ [EvGet (url site) Failed])).
Proof.
  intros Hseed. unfold crawl, bind at 1. by rewrite get_page_run, Hseed.
Qed.

Lemma img_download_body_ok save_dir i path w resp :
  net E (log w) path = Resp resp →
  img_download_body E save_dir i path w
  = (Returns tt,
     mkWorld (visited w) (images_path w)
       (log w ++ EvGet path (Resp resp)
          :: EvWrite (os_path_join save_dir (str_of_nat i +:+ ".png"))
               (content resp)
          :: (if Nat.eqb (i mod 10) 0 then [EvSleep 1] else []))).
Proof.
  intros Hnet. unfold img_download_body, bind at 1.
  rewrite requests_get_run, Hnet.
  unfold bind, emit, time_sleep, emit, ret.
  destruct (_ =? _)%nat; simpl; rewrite <- ?app_assoc; done.
Qed.



Lemma elem_of_page_images bs h :
  h ∈ page_images bs ↔
  ∃ attrs cs, Tag "a" attrs cs ∈ descendants bs
              ∧ attrs !! "href" = Some h ∧ contains h "png".
Proof.
  unfold page_images.
  rewrite elem_of_list_to_set, elem_of_found_values.
  by setoid_rewrite png_search_spec.
Qed.

End WholeRuns.

(** ** Remarks *)

Import Examples.

(** The seed URL is not entered into [visited]: a seed page that links to
    itself is requested a second time, as a link. *)
Example seed_url_requested_again :
  gets (log (snd (crawl env_self_link site_self_link fresh)))
  = ["http://seed/"; "http://seed/"].
Proof. vm_compute. reflexivity. Qed.

(** The raw href is what [visited] holds: with relative links the crawler
    remembers [a] and requests [http://seed/a]. *)
Example visited_holds_raw_href :
  visited (snd (crawl env_ok site_relative fresh)) = {[ "a" ]}
  ∧ gets (log (snd (crawl env_ok site_relative fresh)))
    = ["http://seed/"; "http://seed/a"].
Proof. split; vm_compute; reflexivity. Qed.

(** * The claims *)

(** C1. In a run of [crawl] whose seed page was fetched, let [hs] be the
    raw hrefs of the anchors matching the site's pattern.  The run adds to
    [visited] exactly the raw hrefs of [hs] that were not visited before,
    each of them once; the URLs requested after the seed page are the
    resolved forms of these hrefs, so that none of them is requested twice
    however often the href occurs in [hs]; and every such request comes
    after the insertion of its raw href into [visited]. *)
Theorem crawl_fetches_each_href_at_most_once E site w r0 :
  net E (log w) (url site) = Resp r0 →
  let hs := target_hrefs site (html_parser E (text r0)) in
  ∃ t w',
    crawl E site w = (Returns tt, w')
    ∧ log w' = log w ++ EvGet (url site) (Resp r0) :: t
    ∧ visited w' = list_to_set hs ∪ visited w
    ∧ NoDup (visits t)
    ∧ (∀ h, h ∈ visits t ↔ h ∈ hs ∧ h ∉ visited w)
    ∧ gets t = resolve site <$> visits t
    ∧ NoDup (gets t)
    ∧ (∀ t1 t2 u r,
         t = t1 ++ EvGet u r :: t2 →
         ∃ h, u = resolve site h ∧ EvVisit h ∈ t1).
Proof.
  intros Hseed hs.
  destruct (crawl_run E site w r0 Hseed) as (t & Hrun & Ht).
  fold hs in Hrun, Ht.
  destruct (loop_trace_visits E site _ _ _ _ Ht) as [Hnd Hin].
  pose proof (loop_trace_gets E site _ _ _ _ Ht) as Hgets.
  exists t. eexists. split; [exact Hrun|]. simpl.
  repeat split; try done.
  - by apply Hin.
  - by apply Hin.
  - intros [? ?]. by apply Hin.
  - rewrite Hgets. by apply (NoDup_fmap_2 (resolve site)).
  - intros t1 t2 u r Hsplit.
    destruct (visit_before_get_split site ∅ t t1 t2 u r) as (h & Hu & [Hh|Hh]);
      [by apply (loop_trace_ordered E site _ _ _ _ Ht)|done| |eauto].
    by apply not_elem_of_empty in Hh.
Qed.

(** With relative links the crawler remembers the raw href [a] and fetches
    [http://seed/a]. *)
Lemma crawl_fetches_each_href_at_most_once_witness :
  let hs := target_hrefs site_relative (html_parser env_ok "seed") in
  ∃ t w',
    crawl env_ok site_relative fresh = (Returns tt, w')
    ∧ log w' = [] ++ EvGet "http://seed/" (ok "seed") :: t
    ∧ visited w' = list_to_set hs ∪ ∅
    ∧ NoDup (visits t)
    ∧ (∀ h, h ∈ visits t ↔ h ∈ hs ∧ h ∉ (∅ : gset string))
    ∧ gets t = resolve site_relative <$> visits t
    ∧ NoDup (gets t)
    ∧ (∀ t1 t2 u r,
         t = t1 ++ EvGet u r :: t2 →
         ∃ h, u = resolve site_relative h ∧ EvVisit h ∈ t1).
Proof.
  apply (crawl_fetches_each_href_at_most_once env_ok site_relative fresh
           (mkResponse 200 "seed" "seed")).
  reflexivity.
Defined.

(** C2. When the seed page cannot be fetched, [get_page] returns [None]
    and [crawl] goes on to call [find_all] on it: the run ends with an
    [AttributeError] raised to the caller, after the single request for the
    seed page. *)
Theorem crawl_raises_when_seed_fetch_fails :
  crawl env_down site_h2_p fresh
  = (Raises AttributeError, mkWorld ∅ ∅ [EvGet "http://seed/" Failed]).
Proof. by apply (crawl_seed_failed env_down site_h2_p fresh). Qed.

(** C3. On a seed page with ten anchors that all carry the href [a], one
    link is fetched, and the pause follows it: the counter of [crawl]
    counts the anchors walked over, not the links fetched. *)
Theorem crawl_pauses_after_ten_anchors_one_fetch :
  length (target_hrefs site_h2_p seed_ten_same) = 10
  ∧ log (snd (crawl env_ok site_h2_p fresh))
    = [EvGet "http://seed/" (ok "seed");
       EvVisit "a";
       EvGet "a" (ok "article");
       EvPrint (mkContent "a" "Title" "Body" {[ "pic.png" ]});
       EvSleep 1].
Proof. split; vm_compute; reflexivity. Qed.

(** C4 as stated does not hold: on a page whose only anchor has the href
    [pngs/index.html], image discovery collects that href although it does
    not end in [.png]. *)
Lemma image_discovery_is_not_a_suffix_match :
  ¬ (∀ h, h ∈ page_images page_pngs_dir ↔
          ∃ attrs cs, Tag "a" attrs cs ∈ descendants page_pngs_dir
                      ∧ attrs !! "href" = Some h ∧ ends_in_dot_png h).
Proof.
  intros Hclaim.
  assert (Hin : "pngs/index.html" ∈ page_images page_pngs_dir).
  { apply elem_of_page_images.
    exists {[ "href" := "pngs/index.html" ]}, []. repeat split.
    - apply list_elem_of_here.
    - by exists "", "s/index.html". }
  apply Hclaim in Hin as (attrs & cs & _ & _ & Hsuffix).
  apply endswith_spec in Hsuffix. vm_compute in Hsuffix. discriminate.
Qed.

(** C4, amended.  For every parsed document the comprehension over the
    anchors found by [find_all('a', {'href': re.compile('.*png')})] never
    raises, and the set built from it holds exactly the href values of the
    anchor elements whose href contains the characters [png], in that case
    and anywhere in the string. *)
Theorem image_discovery_collects_hrefs_containing_png bs :
  ∃ hrefs,
    attrs_of (img_obj bs) "href" = Returns hrefs
    ∧ ∀ h, h ∈ (list_to_set hrefs : gset string) ↔
           ∃ attrs cs, Tag "a" attrs cs ∈ descendants bs
                       ∧ attrs !! "href" = Some h ∧ contains h "png".
Proof.
  exists (found_values "a" "href" png_pattern bs). split.
  - apply attrs_of_find_all.
  - intros h. apply elem_of_page_images.
Qed.



(** C6. With two collected images of which the first cannot be fetched,
    [img_download] ends with the [RequestException] of that request; the
    second image, which the network would serve, is never requested. *)
Theorem img_download_stops_at_failed_fetch :
  elements (images_path two_images) = ["a.png"; "b.png"]
  ∧ net env_one_broken [EvGet "a.png" Failed] "b.png" = ok "bytes"
  ∧ img_download env_one_broken "out" two_images
    = (Raises RequestException,
       mkWorld ∅ {[ "a.png"; "b.png" ]} [EvGet "a.png" Failed]).
Proof. repeat split; vm_compute; reflexivity. Qed.

(** C7. With a single collected image, [img_download] pauses right after
    the first download; and the tenth download of a run (index 9) is not
    followed by a pause. *)
Theorem img_download_pauses_after_first_download :
  img_download env_ok "out" one_image
  = (Returns tt,
     mkWorld ∅ {[ "pic.png" ]}
       [EvGet "pic.png" (ok "article");
        EvWrite "out/0.png" "article";
        EvSleep 1])
  ∧ img_download_body env_ok "out" 9 "pic.png" fresh
    = (Returns tt,
       mkWorld ∅ ∅
         [EvGet "pic.png" (ok "article"); EvWrite "out/9.png" "article"]).
Proof. split; vm_compute; reflexivity. Qed.

(** C8. In a run of [crawl] whose seed page was fetched, [images_path]
    ends as its initial value (empty for a new crawler) joined with the
    union of the image sets of all pages fetched in the loop.  And parsing
    a page a second time, the network answering as before, discovers the
    same image set and leaves [images_path] as it was. *)
Theorem crawl_images_are_union_of_page_images E site :
  (∀ w r0,
     net E (log w) (url site) = Resp r0 →
     ∃ t w',
       crawl E site w = (Returns tt, w')
       ∧ log w' = log w ++ EvGet (url site) (Resp r0) :: t
       ∧ images_path w' = images_path w ∪ images_of_log E t)
  ∧ (∀ u w resp,
       net E (log w) u = Resp resp →
       let w1 := snd (parse E site u w) in
       net E (log w1) u = Resp resp →
       let w2 := snd (parse E site u w1) in
       images_path w1 = images_path w ∪ page_images (html_parser E (text resp))
       ∧ images_path w2 = images_path w1).
Proof.
  split.
  - intros w r0 Hseed.
    destruct (crawl_run E site w r0 Hseed) as (t & Hrun & _).
    exists t. eexists. split; [exact Hrun|]. done.
  - intros u w resp Hnet w1 Hnet1 w2. subst w2.
    rewrite (parse_run E site u w1). simpl. rewrite Hnet1. simpl.
    subst w1. rewrite (parse_run E site u w). simpl. rewrite Hnet. simpl.
    split; [done|]. set_solver.
Qed.

Lemma crawl_images_are_union_of_page_images_witness :
  (∃ t w',
     crawl env_ok site_h2_p fresh = (Returns tt, w')
     ∧ log w' = [] ++ EvGet "http://seed/" (ok "seed") :: t
     ∧ images_path w' = ∅ ∪ images_of_log env_ok t)
  ∧ (let w1 := snd (parse env_ok site_h2_p "a" fresh) in
     let w2 := snd (parse env_ok site_h2_p "a" w1) in
     images_path w1 = ∅ ∪ page_images article
     ∧ images_path w2 = images_path w1).
Proof.
  split.
  - apply (proj1 (crawl_images_are_union_of_page_images env_ok site_h2_p)
             fresh (mkResponse 200 "seed" "seed")).
    reflexivity.
  - apply (proj2 (crawl_images_are_union_of_page_images env_ok site_h2_p)
             "a" fresh (mkResponse 200 "article" "article"));
      reflexivity.
Defined.





(** * Further properties of the crawler module *)

(** ** More about logs *)

Lemma printed_app t1 t2 : printed (t1 ++ t2) = printed t1 ++ printed t2.
Proof. apply omap_app. Qed.

Lemma writes_app t1 t2 : writes (t1 ++ t2) = writes t1 ++ writes t2.
Proof. apply omap_app. Qed.


Lemma printed_pause c : printed (pause c) = [].
Proof. unfold pause. by destruct (_ =? _)%nat. Qed.

Lemma sleeps_cons_get u r t : sleeps (EvGet u r :: t) = sleeps t.
Proof. reflexivity. Qed.

(** What [parse] prints for a page: at most one content, with the URL it
    was given, a title and a body that are not empty and the image links
    of the page. *)
Lemma printed_prints E site u r c :
  c ∈ printed (prints E site u r) →
  c_url c = u ∧ c_title c ≠ "" ∧ c_body c ≠ "" ∧ c_img c = fetched_images E r.
Proof.
  unfold prints. destruct r as [resp|]; [|by intros ?%elem_of_nil].
  destruct (String.eqb_spec (safe_get E (html_parser E (text resp))
                               (title_tag site)) "") as [Ht|Ht];
    [by intros ?%elem_of_nil|].
  destruct (String.eqb_spec (safe_get E (html_parser E (text resp))
                               (body_tag site)) "") as [Hb|Hb];
    [by intros ?%elem_of_nil|].
  simpl. intros ->%list_elem_of_singleton. done.
Qed.

Lemma length_printed_prints E site u r :
  (length (printed (prints E site u r)) ≤ 1)%nat.
Proof.
  unfold prints. destruct r; simpl; [|lia]. destruct (_ && _); simpl; lia.
Qed.

Lemma new_hrefs_sublist V hs : sublist (new_hrefs V hs) hs.
Proof.
  revert V. induction hs as [|h hs IH]; intros V; simpl; [constructor|].
  destruct (decide (h ∈ V)); [by apply sublist_cons|by apply sublist_skip].
Qed.

Section MoreLoopTrace.

Variable E : Env.
Variable site : Website.

Lemma loop_trace_new_hrefs V c hs t :
  loop_trace E site V c hs t → visits t = new_hrefs V hs.
Proof.
  induction 1 as [V c|V c h hs t Hin _ IH|V c h hs r t Hnew _ IH]; simpl.
  - done.
  - rewrite visits_app, visits_pause. simpl. by rewrite decide_True.
  - rewrite !visits_app, visits_prints, visits_pause. simpl.
    by rewrite decide_False, IH.
Qed.

Lemma loop_trace_all_seen V c hs t :
  loop_trace E site V c hs t →
  (∀ h, h ∈ hs → h ∈ V) →
  Forall (λ e, e = EvSleep 1) t.
Proof.
  induction 1 as [V c|V c h hs t Hin _ IH|V c h hs r t Hnew _ IH]; intros Hall.
  - constructor.
  - apply Forall_app. split.
    + unfold pause. destruct (_ =? _)%nat; repeat constructor.
    + apply IH. intros h' Hh'. apply Hall. by right.
  - destruct Hnew. apply Hall. by left.
Qed.

Lemma loop_trace_printed V c hs t x :
  loop_trace E site V c hs t →
  x ∈ printed t →
  c_title x ≠ "" ∧ c_body x ≠ ""
  ∧ c_url x ∈ gets t ∧ c_img x ⊆ images_of_log E t.
Proof.
  induction 1 as [V c|V c h hs t Hin _ IH|V c h hs r t Hnew _ IH].
  - by intros ?%elem_of_nil.
  - rewrite printed_app, printed_pause, gets_app, gets_pause,
      images_of_log_app, images_of_log_pause. simpl.
    intros Hx. destruct (IH Hx) as (? & ? & ? & ?). set_solver.
  - change (printed (EvVisit h :: EvGet (resolve site h) r
                       :: prints E site (resolve site h) r
                       ++ pause (c + 1) ++ t))
      with (printed (prints E site (resolve site h) r ++ pause (c + 1) ++ t)).
    rewrite gets_visit_get, !images_of_log_cons, !printed_app, printed_pause,
      !gets_app, !images_of_log_app.
    simpl. intros [Hx|Hx]%elem_of_app.
    + apply printed_prints in Hx as (-> & ? & ? & ->).
      repeat split; [done|done|by left|set_solver].
    + destruct (IH Hx) as (? & ? & ? & ?).
      repeat split; [done|done|set_solver|set_solver].
Qed.

Lemma loop_trace_printed_le V c hs t :
  loop_trace E site V c hs t → (length (printed t) ≤ length (gets t))%nat.
Proof.
  induction 1 as [V c|V c h hs t Hin _ IH|V c h hs r t Hnew _ IH].
  - done.
  - by rewrite printed_app, printed_pause, gets_app, gets_pause.
  - change (printed (EvVisit h :: EvGet (resolve site h) r
                       :: prints E site (resolve site h) r
                       ++ pause (c + 1) ++ t))
      with (printed (prints E site (resolve site h) r ++ pause (c + 1) ++ t)).
    rewrite gets_visit_get, !printed_app, printed_pause, !gets_app,
      gets_prints, gets_pause.
    pose proof (length_printed_prints E site (resolve site h) r).
    rewrite length_app. simpl. lia.
Qed.

End MoreLoopTrace.

Lemma Forall_eq_replicate {A} (x : A) l :
  Forall (λ e, e = x) l → l = replicate (length l) x.
Proof. induction 1 as [|e l -> _ IH]; simpl; [done|]. by rewrite <- IH. Qed.

Lemma all_sleep_facts E t :
  Forall (λ e, e = EvSleep 1) t →
  sleeps t = length t ∧ images_of_log E t = ∅.
Proof.
  induction 1 as [|e l -> _ [IH1 IH2]]; [done|]. split.
  - unfold sleeps in *. simpl. by rewrite IH1.
  - rewrite images_of_log_cons, IH2. set_solver.
Qed.

(** ** [crawl] *)


(** X2. A run of [crawl] whose seed page was fetched pauses once for every
    ten anchors that match the site's pattern, counting the anchors whose
    href had been visited before. *)
Theorem crawl_pauses_once_per_ten_anchors E site w r0 :
  net E (log w) (url site) = Resp r0 →
  sleeps (log (snd (crawl E site w)))
  = sleeps (log w)
    + length (target_hrefs site (html_parser E (text r0))) / 10.
Proof.
  intros Hseed. destruct (crawl_run E site w r0 Hseed) as (t & -> & Ht).
  simpl. rewrite sleeps_app, sleeps_cons_get.
  rewrite (loop_trace_sleeps E site _ _ _ _ Ht). simpl.
  by rewrite Nat.sub_0_r.
Qed.

Lemma crawl_pauses_once_per_ten_anchors_witness :
  sleeps (log (snd (crawl env_ok site_h2_p fresh)))
  = sleeps []
    + length (target_hrefs site_h2_p (html_parser env_ok "seed")) / 10.
Proof.
  apply (crawl_pauses_once_per_ten_anchors env_ok site_h2_p fresh
           (mkResponse 200 "seed" "seed")).
  reflexivity.
Defined.

(** X3. The requests of a run of [crawl] whose seed page was fetched are
    the seed URL followed by the resolved forms of the matching hrefs that
    were not visited before, each at its first occurrence on the seed page
    and in the order of the page. *)
Theorem crawl_requests_new_hrefs_in_page_order E site w r0 :
  net E (log w) (url site) = Resp r0 →
  let hs := target_hrefs site (html_parser E (text r0)) in
  gets (log (snd (crawl E site w)))
  = gets (log w) ++ url site :: (resolve site <$> new_hrefs (visited w) hs)
  ∧ sublist (new_hrefs (visited w) hs) hs.
Proof.
  intros Hseed hs. destruct (crawl_run E site w r0 Hseed) as (t & -> & Ht).
  fold hs in Ht. split; [|apply new_hrefs_sublist].
  simpl. rewrite gets_app. simpl.
  rewrite (loop_trace_gets E site _ _ _ _ Ht).
  by rewrite (loop_trace_new_hrefs E site _ _ _ _ Ht).
Qed.

Lemma crawl_requests_new_hrefs_in_page_order_witness :
  let hs := target_hrefs site_relative (html_parser env_ok "seed") in
  gets (log (snd (crawl env_ok site_relative fresh)))
  = gets [] ++ "http://seed/" :: (resolve site_relative <$> new_hrefs ∅ hs)
  ∧ sublist (new_hrefs ∅ hs) hs.
Proof.
  apply (crawl_requests_new_hrefs_in_page_order env_ok site_relative fresh
           (mkResponse 200 "seed" "seed")).
  reflexivity.
Defined.

(** X4. When every matching href of the seed page has been visited
    already, as in a second run of [crawl] on the same crawler and the
    same seed page, the run requests the seed page and nothing else: it
    only pauses once per ten anchors and leaves [visited] and
    [images_path] as they were. *)
Theorem crawl_again_requests_only_seed_page E site w r0 :
  net E (log w) (url site) = Resp r0 →
  let hs := target_hrefs site (html_parser E (text r0)) in
  (∀ h, h ∈ hs → h ∈ visited w) →
  crawl E site w
  = (Returns tt,
     mkWorld (visited w) (images_path w)
       (log w ++ EvGet (url site) (Resp r0)
          :: replicate (length hs / 10) (EvSleep 1))).
Proof.
  intros Hseed hs Hall.
  destruct (crawl_run E site w r0 Hseed) as (t & -> & Ht). fold hs in Ht.
  pose proof (loop_trace_all_seen E site _ _ _ _ Ht Hall) as Hsleep.
  destruct (all_sleep_facts E t Hsleep) as [Hlen Himg].
  pose proof (loop_trace_sleeps E site _ _ _ _ Ht) as Hn.
  simpl in Hn. rewrite Nat.sub_0_r, Hlen in Hn.
  f_equal. apply world_eq.
  - apply set_eq. intros h. rewrite elem_of_union, elem_of_list_to_set.
    naive_solver.
  - rewrite Himg. set_solver.
  - by rewrite (Forall_eq_replicate _ _ Hsleep), Hn.
Qed.

Lemma crawl_again_requests_only_seed_page_witness :
  crawl env_ok site_h2_p (mkWorld {[ "a" ]} ∅ [])
  = (Returns tt,
     mkWorld {[ "a" ]} ∅
       ([] ++ EvGet "http://seed/" (ok "seed")
          :: replicate
               (length (target_hrefs site_h2_p (html_parser env_ok "seed"))
                / 10)
               (EvSleep 1))).
Proof.
  refine (crawl_again_requests_only_seed_page env_ok site_h2_p
            (mkWorld {[ "a" ]} ∅ []) (mkResponse 200 "seed" "seed")
            eq_refl _).
  intros h Hh. vm_compute in Hh. cbn [visited].
  apply elem_of_singleton. clear -Hh.
  repeat (apply elem_of_cons in Hh as [->|Hh]; [done|]).
  by apply elem_of_nil in Hh.
Defined.

(** X5. Every content printed in a run of [crawl] has a title and a body
    that are not empty, carries the URL of a request made in the loop, and
    its image links are part of [images_path] at the end of the run; and
    at most one content is printed per link requested. *)
Theorem crawl_prints_only_complete_contents E site w r0 :
  net E (log w) (url site) = Resp r0 →
  ∃ t w',
    crawl E site w = (Returns tt, w')
    ∧ log w' = log w ++ EvGet (url site) (Resp r0) :: t
    ∧ (∀ c, c ∈ printed t →
            c_title c ≠ "" ∧ c_body c ≠ ""
            ∧ c_url c ∈ gets t ∧ c_img c ⊆ images_path w')
    ∧ (length (printed t) ≤ length (gets t))%nat.
Proof.
  intros Hseed. destruct (crawl_run E site w r0 Hseed) as (t & Hrun & Ht).
  exists t. eexists. split; [exact Hrun|]. simpl.
  split; [done|]. split; [|by apply (loop_trace_printed_le E site _ _ _ _ Ht)].
  intros c Hc.
  destruct (loop_trace_printed E site _ _ _ _ c Ht Hc) as (? & ? & ? & ?).
  repeat split; [done|done|done|set_solver].
Qed.

Lemma crawl_prints_only_complete_contents_witness :
  ∃ t w',
    crawl env_ok site_h2_p fresh = (Returns tt, w')
    ∧ log w' = [] ++ EvGet "http://seed/" (ok "seed") :: t
    ∧ (∀ c, c ∈ printed t →
            c_title c ≠ "" ∧ c_body c ≠ ""
            ∧ c_url c ∈ gets t ∧ c_img c ⊆ images_path w')
    ∧ (length (printed t) ≤ length (gets t))%nat.
Proof.
  apply (crawl_prints_only_complete_contents env_ok site_h2_p fresh
           (mkResponse 200 "seed" "seed")).
  reflexivity.
Defined.

(** ** [parse], [safe_get], [Content.print] *)

Lemma append_eq_empty a b : a +:+ b = "" → a = "" ∧ b = "".
Proof. destruct a; [done|]. rewrite append_cons. discriminate. Qed.

Lemma join_nl_two x y l : join nl (x :: y :: l) ≠ "".
Proof.
  unfold join. simpl. intros [_ H]%append_eq_empty.
  unfold nl in H. discriminate.
Qed.



(** X7. [safe_get] returns the empty string exactly when the selector
    selects nothing or selects a single element without text.  Two or more
    selected elements give a string that is not empty, even when none of
    them has text, because of the line feeds between them. *)
Theorem safe_get_empty_iff E page_obj selector :
  safe_get E page_obj selector = ""
  ↔ css_select E page_obj selector = []
    ∨ ∃ e, css_select E page_obj selector = [e] ∧ get_text e = "".
Proof.
  unfold safe_get.
  destruct (css_select E page_obj selector) as [|e [|e' es]]; simpl.
  - split; [by left|done].
  - split.
    + intros H. right. by exists e.
    + intros [?|(e0 & [= <-] & H)]; done.
  - split.
    + intros H. by apply (join_nl_two (get_text e) (get_text e')
                            (map get_text es)) in H.
    + intros [?|(e0 & ? & _)]; done.
Qed.

(** X8. Every anchor whose href ends in [.png] has its href among the
    image links of the page. *)
Theorem hrefs_ending_in_dot_png_are_collected bs attrs cs h :
  Tag "a" attrs cs ∈ descendants bs →
  attrs !! "href" = Some h →
  ends_in_dot_png h →
  h ∈ page_images bs.
Proof.
  intros Hin Hh [p ->]. apply elem_of_page_images.
  exists attrs, cs. repeat split; [done|done|].
  exists (p +:+ "."), "".
  rewrite <- (string_of_list_ascii_of_string (p +:+ ".png")).
  rewrite <- (string_of_list_ascii_of_string ((p +:+ ".") +:+ "png" +:+ "")).
  by rewrite !list_ascii_of_append, <- app_assoc.
Qed.

Lemma hrefs_ending_in_dot_png_are_collected_witness :
  "pic.png" ∈ page_images article.
Proof.
  apply (hrefs_ending_in_dot_png_are_collected article
           {[ "href" := "pic.png" ]} [] "pic.png").
  - simpl. do 4 apply list_elem_of_further. apply list_elem_of_here.
  - reflexivity.
  - by exists "pic".
Defined.

(** X9. The last line that [Content.print] writes for a page reported by
    [parse] shows the number of distinct image links of the page: anchors
    that repeat an href are counted once. *)
Theorem Content_print_counts_distinct_image_links u title body bs :
  Content_print (mkContent u title body (page_images bs))
  = ["URL: " +:+ u;
     "TITLE: " +:+ title;
     "BODY: " +:+ body;
     "IMAGE: " +:+ str_of_nat
        (length (remove_dups (found_values "a" "href" png_pattern bs)))].
Proof.
  unfold Content_print, page_images. simpl.
  rewrite <- (size_list_to_set (C := gset string)
                (remove_dups (found_values "a" "href" png_pattern bs)))
    by apply NoDup_remove_dups.
  assert (Heq : (list_to_set (found_values "a" "href" png_pattern bs)
                 : gset string)
                = list_to_set
                    (remove_dups (found_values "a" "href" png_pattern bs))).
  { apply set_eq. intros h.
    by rewrite !elem_of_list_to_set, elem_of_remove_dups. }
  by rewrite Heq.
Qed.

(** ** [img_download] *)

Lemma append_inv_tail a b c : a +:+ c = b +:+ c → a = b.
Proof.
  intros H. apply (f_equal list_ascii_of_string) in H.
  rewrite !list_ascii_of_append in H. apply app_inv_tail in H.
  by rewrite <- (string_of_list_ascii_of_string a),
    <- (string_of_list_ascii_of_string b), H.
Qed.

Lemma to_uint_nonnil i : Nat.to_uint i ≠ Decimal.Nil.
Proof.
  rewrite <- (Unsigned.of_to i) at 1. rewrite Unsigned.to_of.
  apply unorm_nonnil.
Qed.

Lemma str_of_nat_inj i j : str_of_nat i = str_of_nat j → i = j.
Proof.
  unfold str_of_nat. intros H. apply Unsigned.to_uint_inj.
  apply (f_equal NilZero.uint_of_string) in H.
  rewrite !NilZero.usu in H by apply to_uint_nonnil.
  by injection H.
Qed.

Lemma str_of_nat_no_slash i s :
  String.prefix "/" (str_of_nat i +:+ s) = false.
Proof.
  unfold str_of_nat. pose proof (to_uint_nonnil i) as Hnil.
  destruct (Nat.to_uint i); done.
Qed.

(** Different indices give different files. *)
Lemma image_file_inj save_dir i j :
  image_file save_dir i = image_file save_dir j → i = j.
Proof.
  unfold image_file, os_path_join. rewrite !str_of_nat_no_slash.
  destruct (_ || _); intros H.
  - apply String.app_inj in H. apply append_inv_tail in H.
    by apply str_of_nat_inj.
  - apply String.app_inj, String.app_inj in H. apply append_inv_tail in H.
    by apply str_of_nat_inj.
Qed.

Lemma sleeps_pause_after_download i :
  sleeps (pause_after_download i) = (i + 10) / 10 - (i + 9) / 10.
Proof.
  pose proof (Nat.div_mod_eq i 10) as H0.
  pose proof (Nat.div_mod_eq (i + 9) 10) as H1.
  pose proof (Nat.div_mod_eq (i + 10) 10) as H2.
  pose proof (Nat.mod_upper_bound i 10) as B0.
  pose proof (Nat.mod_upper_bound (i + 9) 10) as B1.
  pose proof (Nat.mod_upper_bound (i + 10) 10) as B2.
  unfold pause_after_download. revert H0 H1 H2 B0 B1 B2.
  generalize (i / 10) (i mod 10) ((i + 9) / 10) ((i + 9) mod 10)
    ((i + 10) / 10) ((i + 10) mod 10).
  intros q0 r0 q1 r1 q2 r2 H0 H1 H2 B0 B1 B2.
  destruct (Nat.eqb_spec r0 0) as [H|H]; unfold sleeps; simpl; lia.
Qed.

Section Download.

Variable E : Env.

Lemma img_download_loop_cons_ok save_dir i p ps w resp :
  net E (log w) p = Resp resp →
  img_download_loop E save_dir i (p :: ps) w
  = img_download_loop E save_dir (S i) ps
      (mkWorld (visited w) (images_path w)
         (log w ++ EvGet p (Resp resp)
            :: EvWrite (image_file save_dir i) (content resp)
            :: pause_after_download i)).
Proof.
  intros Hnet. cbn [img_download_loop]. unfold bind at 1.
  by rewrite (img_download_body_ok E save_dir i p w resp Hnet).
Qed.


(** When every request is answered, the loop returns and its log has the
    shape [download_trace]. *)
Lemma img_download_loop_served save_dir paths i w :
  (∀ l p, p ∈ paths → net E l p ≠ Failed) →
  ∃ t,
    img_download_loop E save_dir i paths w
    = (Returns tt, mkWorld (visited w) (images_path w) (log w ++ t))
    ∧ download_trace save_dir i paths t.
Proof.
  revert i w. induction paths as [|p ps IH]; intros i w Hserved.
  - exists []. split; [|constructor]. simpl. unfold ret.
    destruct w; simpl. by rewrite app_nil_r.
  - destruct (net E (log w) p) as [resp|] eqn:Hnet;
      [|by destruct (Hserved (log w) p (list_elem_of_here _ _))].
    rewrite (img_download_loop_cons_ok save_dir i p ps w resp Hnet).
    destruct (IH (S i) (mkWorld (visited w) (images_path w)
                          (log w ++ EvGet p (Resp resp)
                             :: EvWrite (image_file save_dir i) (content resp)
                             :: pause_after_download i)))
      as (t & Hrun & Ht).
    { intros l q Hq. apply Hserved. by right. }
    cbn [visited images_path log] in Hrun.
    exists (EvGet p (Resp resp)
              :: EvWrite (image_file save_dir i) (content resp)
              :: pause_after_download i ++ t).
    split; [|by constructor].
    rewrite Hrun. f_equal. apply world_eq; [done|done|].
    by rewrite <- app_assoc.
Qed.

End Download.

Lemma download_trace_gets save_dir i paths t :
  download_trace save_dir i paths t → gets t = paths.
Proof.
  induction 1 as [i|i p ps r t _ IH]; [done|].
  simpl. rewrite gets_app, IH. unfold pause_after_download.
  by destruct (_ =? _)%nat.
Qed.

Lemma download_trace_files save_dir i paths t :
  download_trace save_dir i paths t →
  (writes t).*1 = image_file save_dir <$> seq i (length paths).
Proof.
  induction 1 as [i|i p ps r t _ IH]; [done|].
  simpl. rewrite writes_app, fmap_app, IH. unfold pause_after_download.
  by destruct (_ =? _)%nat.
Qed.

Lemma download_trace_sleeps save_dir i paths t :
  download_trace save_dir i paths t →
  sleeps t = (i + length paths + 9) / 10 - (i + 9) / 10.
Proof.
  induction 1 as [i|i p ps r t _ IH].
  - cbn [length]. rewrite Nat.add_0_r. unfold sleeps. cbn. lia.
  - change (sleeps (EvGet p (Resp r)
                      :: EvWrite (image_file save_dir i) (content r)
                      :: pause_after_download i ++ t))
      with (sleeps (pause_after_download i ++ t)).
    rewrite sleeps_app, sleeps_pause_after_download, IH. cbn [length].
    replace (S i + length ps + 9) with (i + S (length ps) + 9) by lia.
    replace (S i + 9) with (i + 10) by lia.
    assert ((i + 9) / 10 ≤ (i + 10) / 10)%nat
      by (apply Nat.Div0.div_le_mono; lia).
    assert ((i + 10) / 10 ≤ (i + S (length ps) + 9) / 10)%nat
      by (apply Nat.Div0.div_le_mono; lia).
    lia.
Qed.

Lemma img_download_unfold E save_dir w :
  img_download E save_dir w
  = img_download_loop E save_dir 0 (elements (images_path w))
      (mkWorld (visited w) (images_path w)
         (log w ++ (if path_exists E (log w) save_dir then []
                    else [EvMakedirs save_dir]))).
Proof.
  unfold img_download, bind at 1, os_path_exists, bind at 1.
  destruct (path_exists E (log w) save_dir); simpl.
  - unfold bind, ret, get_images_path. destruct w; simpl.
    by rewrite app_nil_r.
  - unfold bind, emit, get_images_path. done.
Qed.

Lemma env_ok_serves l p : net env_ok l p ≠ Failed.
Proof. simpl. unfold net_ok. by destruct (_ =? _)%string. Qed.


(** X11. When the network answers the request for every collected image,
    [img_download] returns normally.  It first creates the directory if it
    is missing, then requests each image of [images_path] once, in the
    order in which the set is enumerated, and after each request writes
    the bytes received to the file of that index. *)
Theorem img_download_fetches_and_writes_every_image E save_dir w :
  (∀ l p, p ∈ images_path w → net E l p ≠ Failed) →
  ∃ t,
    img_download E save_dir w
    = (Returns tt,
       mkWorld (visited w) (images_path w)
         (log w
            ++ (if path_exists E (log w) save_dir then []
                else [EvMakedirs save_dir])
            ++ t))
    ∧ download_trace save_dir 0 (elements (images_path w)) t
    ∧ gets t = elements (images_path w)
    ∧ NoDup (gets t).
Proof.
  intros Hserved. rewrite img_download_unfold.
  destruct (img_download_loop_served E save_dir (elements (images_path w)) 0
              (mkWorld (visited w) (images_path w)
                 (log w ++ (if path_exists E (log w) save_dir then []
                            else [EvMakedirs save_dir]))))
    as (t & Hrun & Ht).
  { intros l p Hp. apply Hserved. by apply elem_of_elements. }
  cbn [visited images_path log] in Hrun.
  exists t. split; [by rewrite Hrun, <- app_assoc|].
  split; [done|]. rewrite (download_trace_gets _ _ _ _ Ht).
  split; [done|apply NoDup_elements].
Qed.

Lemma img_download_fetches_and_writes_every_image_witness :
  ∃ t,
    img_download env_ok "out" one_image
    = (Returns tt,
       mkWorld ∅ {[ "pic.png" ]}
         ([] ++ (if path_exists env_ok [] "out" then []
                 else [EvMakedirs "out"])
             ++ t))
    ∧ download_trace "out" 0 (elements ({[ "pic.png" ]} : gset string)) t
    ∧ gets t = elements ({[ "pic.png" ]} : gset string)
    ∧ NoDup (gets t).
Proof.
  apply (img_download_fetches_and_writes_every_image env_ok "out" one_image).
  intros l p _. apply env_ok_serves.
Defined.


(** X12. When the network answers the request for every collected image,
    the files written by [img_download] are those with the indices from 0
    up to the number of images, in this order, and no two of them are the
    same file: within one run no image overwrites another. *)
Theorem img_download_writes_distinct_files E save_dir w :
  (∀ l p, p ∈ images_path w → net E l p ≠ Failed) →
  (writes (log (snd (img_download E save_dir w)))).*1
  = (writes (log w)).*1
    ++ (image_file save_dir <$> seq 0 (size (images_path w)))
  ∧ NoDup (image_file save_dir <$> seq 0 (size (images_path w))).
Proof.
  intros Hserved. split.
  - rewrite img_download_unfold.
    destruct (img_download_loop_served E save_dir (elements (images_path w))
                0
                (mkWorld (visited w) (images_path w)
                   (log w ++ (if path_exists E (log w) save_dir then []
                              else [EvMakedirs save_dir]))))
      as (t & -> & Ht).
    { intros l p Hp. apply Hserved. by apply elem_of_elements. }
    cbn [snd visited images_path log].
    rewrite !writes_app, !fmap_app, (download_trace_files _ _ _ _ Ht).
    change (length (elements (images_path w))) with (size (images_path w)).
    destruct (path_exists _ _ _); simpl; by rewrite app_nil_r.
  - apply NoDup_fmap_2_strong; [|apply NoDup_seq].
    intros i j _ _. apply image_file_inj.
Qed.

Lemma img_download_writes_distinct_files_witness :
  (writes (log (snd (img_download env_ok "out" one_image)))).*1
  = (writes []).*1
    ++ (image_file "out" <$> seq 0 (size ({[ "pic.png" ]} : gset string)))
  ∧ NoDup (image_file "out" <$> seq 0 (size ({[ "pic.png" ]} : gset string))).
Proof.
  apply (img_download_writes_distinct_files env_ok "out" one_image).
  intros l p _. apply env_ok_serves.
Defined.

(** X13. When the network answers the request for every collected image,
    [img_download] pauses after the downloads with the indices 0, 10, 20
    and so on: for [n] images it pauses [(n + 9) / 10] times. *)
Theorem img_download_pause_count E save_dir w :
  (∀ l p, p ∈ images_path w → net E l p ≠ Failed) →
  sleeps (log (snd (img_download E save_dir w)))
  = sleeps (log w) + (size (images_path w) + 9) / 10.
Proof.
  intros Hserved. rewrite img_download_unfold.
  destruct (img_download_loop_served E save_dir (elements (images_path w)) 0
              (mkWorld (visited w) (images_path w)
                 (log w ++ (if path_exists E (log w) save_dir then []
                            else [EvMakedirs save_dir]))))
    as (t & -> & Ht).
  { intros l p Hp. apply Hserved. by apply elem_of_elements. }
  cbn [snd visited images_path log].
  rewrite !sleeps_app, (download_trace_sleeps _ _ _ _ Ht).
  change (length (elements (images_path w))) with (size (images_path w)).
  replace (sleeps (if path_exists E (log w) save_dir then []
                   else [EvMakedirs save_dir])) with 0
    by (by destruct (path_exists _ _ _)).
  replace ((0 + 9) / 10) with 0 by reflexivity.
  rewrite Nat.sub_0_r. simpl. lia.
Qed.

Lemma img_download_pause_count_witness :
  sleeps (log (snd (img_download env_ok "out" one_image)))
  = sleeps [] + (size ({[ "pic.png" ]} : gset string) + 9) / 10.
Proof.
  apply (img_download_pause_count env_ok "out" one_image).
  intros l p _. apply env_ok_serves.
Defined.

(** ** The script *)

(** Searching with a pattern of literal characters finds the strings that
    contain them. *)
Lemma lit_search_spec w s :
  re_search (lit (list_ascii_of_string w)) s = true ↔ contains s w.
Proof.
  unfold re_search, contains. rewrite ReFacts.search_from_spec. split.
  - intros (p & u & v & Heq & Hu). apply ReFacts.matches_lit in Hu as ->.
    exists (string_of_list_ascii p), (string_of_list_ascii v).
    rewrite <- (string_of_list_ascii_of_string s), Heq.
    by rewrite !string_of_list_ascii_app, string_of_list_ascii_of_string.
  - intros (p & q & ->).
    exists (list_ascii_of_string p), (list_ascii_of_string w),
      (list_ascii_of_string q).
    split; [by rewrite !list_ascii_of_append|]. by apply ReFacts.matches_lit.
Qed.

(** X14. The script stops at the first idol whose seed page cannot be
    fetched: the [AttributeError] of [crawl] leaves the loop, so that
    nothing is requested for the idols that follow and nothing is
    downloaded. *)
Theorem main_loop_stops_at_unreachable_seed_page E i name rest w :
  net E (log w) (Main.root +:+ Main.chara_show i) = Failed →
  Main.main_loop E ((i, name) :: rest) w
  = (Raises AttributeError,
     mkWorld ∅ ∅
       (log w ++ [EvGet (Main.root +:+ Main.chara_show i) Failed])).
Proof.
  intros Hseed. cbn [Main.main_loop]. unfold bind at 1.
  unfold Main.main_body, bind at 1, Crawler_init. unfold bind at 1.
  by rewrite (crawl_seed_failed E (Main.million_theater_db i)
                (mkWorld ∅ ∅ (log w)) Hseed).
Qed.

Lemma main_loop_stops_at_unreachable_seed_page_witness :
  Main.main env_down fresh
  = (Raises AttributeError,
     mkWorld ∅ ∅
       ([] ++ [EvGet (Main.root +:+ Main.chara_show 1) Failed])).
Proof.
  apply (main_loop_stops_at_unreachable_seed_page env_down 1 "haruka"
           (Main.enumerate (tail Main.idol_list) 2) fresh).
  reflexivity.
Defined.

(** X15. For the site that the script builds for the idol with number
    [i], the links followed are the hrefs of the anchors whose href
    contains [chara/show/i/], and each is requested as it is written.  The
    seed URL itself contains that text. *)
Theorem main_site_follows_hrefs_containing_chara_show i bs h :
  (h ∈ target_hrefs (Main.million_theater_db i) bs
   ↔ ∃ attrs cs, Tag "a" attrs cs ∈ descendants bs
                 ∧ attrs !! "href" = Some h
                 ∧ contains h (Main.chara_show i))
  ∧ resolve (Main.million_theater_db i) h = h
  ∧ contains (url (Main.million_theater_db i)) (Main.chara_show i).
Proof.
  split; [|split].
  - unfold target_hrefs. rewrite elem_of_found_values.
    change (target_pattern (Main.million_theater_db i))
      with (lit (list_ascii_of_string (Main.chara_show i))).
    by setoid_rewrite lit_search_spec.
  - done.
  - exists Main.root, "". simpl.
    rewrite <- (string_of_list_ascii_of_string
                  (Main.root +:+ Main.chara_show i)).
    rewrite <- (string_of_list_ascii_of_string
                  (Main.root +:+ Main.chara_show i +:+ "")).
    by rewrite !list_ascii_of_append, app_nil_r.
Qed.

(** * Properties of [scraping.py] *)

(** ** Trees *)

Lemma node_ind_Forall (P : node → Prop) :
  (∀ s, P (NavigableString s)) →
  (∀ nm attrs cs, Forall P cs → P (Tag nm attrs cs)) →
  ∀ n, P n.
Proof.
  intros Hs Ht. fix IH 1. intros [s|nm attrs cs]; [apply Hs|].
  apply Ht. induction cs as [|c cs IHcs]; constructor; [apply IH|apply IHcs].
Qed.

Lemma descendants_Tag nm attrs cs :
  descendants (Tag nm attrs cs) = cs ≫= λ c, c :: descendants c.
Proof.
  simpl. induction cs as [|c cs IH]; [done|].
  rewrite bind_cons. simpl. by rewrite IH.
Qed.

Lemma elem_of_descendants_Tag x nm attrs cs :
  x ∈ descendants (Tag nm attrs cs)
  ↔ ∃ c, c ∈ cs ∧ (x = c ∨ x ∈ descendants c).
Proof.
  rewrite descendants_Tag, list_elem_of_bind. split.
  - intros (c & Hx & Hc). exists c. apply elem_of_cons in Hx. done.
  - intros (c & Hc & Hx). exists c. split; [|done]. by apply elem_of_cons.
Qed.

(** What lies below a descendant lies below the node. *)
Lemma descendants_trans t b bs :
  b ∈ descendants bs → t ∈ descendants b → t ∈ descendants bs.
Proof.
  revert b t. induction bs as [s|nm attrs cs IH] using node_ind_Forall;
    intros b t Hb Ht.
  - by apply elem_of_nil in Hb.
  - apply elem_of_descendants_Tag in Hb as (c & Hc & Hb).
    apply elem_of_descendants_Tag. exists c. split; [done|]. right.
    destruct Hb as [->|Hb]; [done|].
    rewrite Forall_forall in IH. by apply (IH c Hc b t).
Qed.

Lemma head_filter_Some {A} (f : A → bool) l x :
  head (List.filter f l) = Some x → x ∈ l ∧ f x = true.
Proof.
  intros H. apply head_Some_elem_of in H.
  apply list_elem_of_In, filter_In in H as [H ?].
  by apply list_elem_of_In in H.
Qed.


Lemma is_tag_true name n :
  Scraping.is_tag name n = true ↔ ∃ attrs cs, n = Tag name attrs cs.
Proof.
  destruct n as [s|nm attrs cs]; simpl.
  - split; [done|by intros (? & ? & ?)].
  - rewrite String.eqb_eq. split; [intros ->; eauto|by intros (? & ? & [= ->])].
Qed.

Lemma find_Some name root t :
  Scraping.find name root = Some t →
  t ∈ descendants root ∧ ∃ attrs cs, t = Tag name attrs cs.
Proof.
  intros [Hin Htag]%head_filter_Some. by apply is_tag_true in Htag.
Qed.


(** ** [get_title] *)



(** X17. When [get_title] returns an element, it is an [h1] element of
    the page that lies inside a [body] element of the page, and nothing
    was printed. *)
Theorem get_title_returns_h1_inside_body U url t :
  fst (Scraping.get_title U url) = Scraping.Ret (Some t) →
  ∃ html battrs bcs attrs cs,
    Scraping.urlopen U url = Scraping.Opened html
    ∧ t = Tag "h1" attrs cs
    ∧ Tag "body" battrs bcs ∈ descendants (Scraping.parse_html U html)
    ∧ t ∈ descendants (Tag "body" battrs bcs)
    ∧ t ∈ descendants (Scraping.parse_html U html)
    ∧ snd (Scraping.get_title U url) = [].
Proof.
  unfold Scraping.get_title.
  destruct (Scraping.urlopen U url) as [html|msg|msg]; [|done|done].
  destruct (Scraping.find "body" (Scraping.parse_html U html))
    as [body|] eqn:Hbody; [|done].
  simpl. intros [= Ht].
  apply find_Some in Ht as (Hin & attrs & cs & ->).
  apply find_Some in Hbody as (Hb & battrs & bcs & ->).
  exists html, battrs, bcs, attrs, cs. repeat split; try done.
  by apply (descendants_trans _ (Tag "body" battrs bcs)).
Qed.

Lemma get_title_returns_h1_inside_body_witness :
  ∃ html battrs bcs attrs cs,
    Scraping.urlopen Scraping.serve_front_page "http://seed/"
    = Scraping.Opened html
    ∧ Tag "h1" ∅ [NavigableString "Login"] = Tag "h1" attrs cs
    ∧ Tag "body" battrs bcs
      ∈ descendants (Scraping.parse_html Scraping.serve_front_page html)
    ∧ Tag "h1" ∅ [NavigableString "Login"]
      ∈ descendants (Tag "body" battrs bcs)
    ∧ Tag "h1" ∅ [NavigableString "Login"]
      ∈ descendants (Scraping.parse_html Scraping.serve_front_page html)
    ∧ snd (Scraping.get_title Scraping.serve_front_page "http://seed/") = [].
Proof.
  apply (get_title_returns_h1_inside_body Scraping.serve_front_page
           "http://seed/" (Tag "h1" ∅ [NavigableString "Login"])).
  reflexivity.
Defined.

(** ** [get_idol_links] *)

(** Wrapping a pattern in [.*] on both sides does not change what a search
    finds. *)
Lemma idol_pattern_search r s :
  re_search (Scraping.idol_pattern r) s = true ↔ re_search r s = true.
Proof.
  unfold re_search, Scraping.idol_pattern.
  rewrite !ReFacts.search_from_spec. split.
  - intros (p & u & v & -> & Hu).
    apply ReFacts.matches_cat_inv in Hu as (a & u1 & -> & _ & Hu).
    apply ReFacts.matches_cat_inv in Hu as (u' & b & -> & Hu & _).
    exists (p ++ a), u', (b ++ v). split; [|done].
    by rewrite <- !app_assoc.
  - intros (p & u & v & -> & Hu). exists p, u, v. split; [done|].
    apply (m_cat _ _ [] u); [constructor|].
    rewrite <- (app_nil_r u). apply m_cat; [done|constructor].
Qed.

Lemma eps_search s : re_search Eps s = true.
Proof. unfold re_search. by destruct (list_ascii_of_string s). Qed.

Lemma elem_of_find_all name key pattern root n :
  n ∈ find_all name key pattern root
  ↔ n ∈ descendants root
    ∧ ∃ attrs cs v, n = Tag name attrs cs ∧ attrs !! key = Some v
                    ∧ re_search pattern v = true.
Proof.
  unfold find_all. rewrite list_elem_of_In, filter_In, <- list_elem_of_In.
  split; intros [Hin H]; (split; [done|]).
  - destruct n as [s|nm attrs cs]; simpl in H; [done|].
    apply andb_true_iff in H as [->%String.eqb_eq H].
    destruct (attrs !! key) as [v|] eqn:Hv; [|done].
    by exists attrs, cs, v.
  - destruct H as (attrs & cs & v & -> & Hv & Hm). simpl.
    by rewrite String.eqb_refl, Hv.
Qed.

(** The comprehension [[tag.attrs[key] for tag in tags]] either returns
    the values, every tag having the key, or raises what the first tag
    without it raises. *)
Lemma attrs_of_cases tags key :
  (attrs_of tags key = Returns (omap (λ n, attr n key) tags)
   ∧ ∀ n, n ∈ tags → is_Some (attr n key))
  ∨ (∃ e n, attrs_of tags key = Raises e ∧ n ∈ tags
            ∧ attrs_getitem n key = Raises e).
Proof.
  induction tags as [|t tags IH]; simpl.
  - left. split; [done|]. by intros n ?%elem_of_nil.
  - destruct (attrs_getitem t key) as [v|e] eqn:Ht.
    + assert (Hattr : attr t key = Some v).
      { destruct t as [s|nm attrs cs]; simpl in *; [done|].
        by destruct (attrs !! key); simplify_eq. }
      rewrite Hattr.
      destruct IH as [[-> Hall]|(e & n & -> & Hn & He)].
      * left. split; [done|].
        intros n [->|Hn]%elem_of_cons; [by rewrite Hattr|by apply Hall].
      * right. exists e, n. split; [done|]. split; [by right|done].
    + right. exists e, t. split; [done|]. split; [by left|done].
Qed.

Section IdolLinks.

Variable U : Scraping.Urllib.
Variable url : string.
Variable idol : regex.


(** What [get_idol_links] returns for a page on which every anchor with a
    matching title has an [href]. *)
Lemma get_idol_links_returns html :
  Scraping.urlopen U url = Scraping.Opened html →
  (∀ attrs cs t,
     Tag "a" attrs cs ∈ descendants (Scraping.parse_html U html) →
     attrs !! "title" = Some t → re_search idol t = true →
     is_Some (attrs !! "href")) →
  ∃ links,
    Scraping.get_idol_links U url idol = Scraping.Ret links
    ∧ ∀ h, h ∈ links
           ↔ ∃ attrs cs t,
               Tag "a" attrs cs ∈ descendants (Scraping.parse_html U html)
               ∧ attrs !! "title" = Some t
               ∧ re_search idol t = true
               ∧ attrs !! "href" = Some h.
Proof.
  intros Hopen Hhref. unfold Scraping.get_idol_links. rewrite Hopen.
  destruct (attrs_of_cases
              (find_all "a" "title" (Scraping.idol_pattern idol)
                 (Scraping.parse_html U html)) "href")
    as [[-> Hall]|(e' & n & -> & Hn & He)].
  - eexists. split; [done|]. intros h. rewrite list_elem_of_omap. split.
    + intros (n & Hn & Hh).
      apply elem_of_find_all in Hn
        as (Hin & attrs & cs & t & -> & Ht & Hm).
      apply (proj1 (idol_pattern_search _ _)) in Hm.
      exists attrs, cs, t. done.
    + intros (attrs & cs & t & Hin & Ht & Hm & Hh).
      exists (Tag "a" attrs cs). split; [|done].
      apply elem_of_find_all. split; [done|].
      exists attrs, cs, t. by rewrite idol_pattern_search.
  - apply elem_of_find_all in Hn
      as (Hin & attrs & cs & t & -> & Ht & Hm).
    apply (proj1 (idol_pattern_search _ _)) in Hm.
    destruct (Hhref attrs cs t Hin Ht Hm) as [v Hv].
    simpl in He. by rewrite Hv in He.
Qed.

End IdolLinks.

(** X19. For an idol name [w] without special characters and a page on
    which every anchor whose title contains [w] has an [href],
    [get_idol_links] returns the hrefs of exactly the anchors whose
    [title] attribute contains [w]. *)
Theorem get_idol_links_lists_anchors_titled_with_idol U url w html :
  Scraping.urlopen U url = Scraping.Opened html →
  (∀ attrs cs t,
     Tag "a" attrs cs ∈ descendants (Scraping.parse_html U html) →
     attrs !! "title" = Some t → contains t w →
     is_Some (attrs !! "href")) →
  ∃ links,
    Scraping.get_idol_links U url (lit (list_ascii_of_string w))
    = Scraping.Ret links
    ∧ ∀ h, h ∈ links
           ↔ ∃ attrs cs t,
               Tag "a" attrs cs ∈ descendants (Scraping.parse_html U html)
               ∧ attrs !! "title" = Some t
               ∧ contains t w
               ∧ attrs !! "href" = Some h.
Proof.
  intros Hopen Hhref.
  destruct (get_idol_links_returns U url (lit (list_ascii_of_string w)) html
              Hopen) as (links & Hret & Hlinks).
  { intros attrs cs t Hin Ht Hm. apply (Hhref attrs cs t Hin Ht).
    by apply lit_search_spec. }
  exists links. split; [done|]. intros h. rewrite Hlinks.
  by setoid_rewrite lit_search_spec.
Qed.

Lemma front_page_anchors_have_href attrs cs :
  Tag "a" attrs cs ∈ descendants Scraping.front_page →
  is_Some (attrs !! "href").
Proof.
  intros Hin. cbn in Hin.
  repeat (apply elem_of_cons in Hin as [Hin|Hin];
          [try discriminate; injection Hin as -> ->; by eexists|]).
  by apply elem_of_nil in Hin.
Qed.

Lemma get_idol_links_lists_anchors_titled_with_idol_witness :
  ∃ links,
    Scraping.get_idol_links Scraping.serve_front_page "http://seed/"
      (lit (list_ascii_of_string "Tsumugi"))
    = Scraping.Ret links
    ∧ ∀ h, h ∈ links
           ↔ ∃ attrs cs t,
               Tag "a" attrs cs
               ∈ descendants
                   (Scraping.parse_html Scraping.serve_front_page "front")
               ∧ attrs !! "title" = Some t
               ∧ contains t "Tsumugi"
               ∧ attrs !! "href" = Some h.
Proof.
  apply (get_idol_links_lists_anchors_titled_with_idol
           Scraping.serve_front_page "http://seed/" "Tsumugi" "front").
  - reflexivity.
  - intros attrs cs t Hin _ _. by apply (front_page_anchors_have_href attrs cs).
Defined.

(** X20. With the default idol, the empty text, and a page on which
    every anchor with a [title] attribute has an [href], [get_idol_links]
    returns the hrefs of the anchors that have a [title] attribute,
    whatever the title; the href of an anchor without [title] is listed
    only if another anchor carries it. *)
Theorem get_idol_links_default_lists_titled_anchors U url html :
  Scraping.urlopen U url = Scraping.Opened html →
  (∀ attrs cs,
     Tag "a" attrs cs ∈ descendants (Scraping.parse_html U html) →
     is_Some (attrs !! "title") → is_Some (attrs !! "href")) →
  ∃ links,
    Scraping.get_idol_links U url Eps = Scraping.Ret links
    ∧ ∀ h, h ∈ links
           ↔ ∃ attrs cs,
               Tag "a" attrs cs ∈ descendants (Scraping.parse_html U html)
               ∧ is_Some (attrs !! "title")
               ∧ attrs !! "href" = Some h.
Proof.
  intros Hopen Hhref.
  destruct (get_idol_links_returns U url Eps html Hopen)
    as (links & Hret & Hlinks).
  { intros attrs cs t Hin Ht _. apply (Hhref attrs cs Hin). by exists t. }
  exists links. split; [done|]. intros h. rewrite Hlinks. split.
  - intros (attrs & cs & t & Hin & Ht & _ & Hh).
    exists attrs, cs. split; [done|]. split; [by exists t|done].
  - intros (attrs & cs & Hin & [t Ht] & Hh).
    exists attrs, cs, t. split; [done|]. split; [done|].
    split; [apply eps_search|done].
Qed.

Lemma get_idol_links_default_lists_titled_anchors_witness :
  ∃ links,
    Scraping.get_idol_links Scraping.serve_front_page "http://seed/" Eps
    = Scraping.Ret links
    ∧ ∀ h, h ∈ links
           ↔ ∃ attrs cs,
               Tag "a" attrs cs
               ∈ descendants
                   (Scraping.parse_html Scraping.serve_front_page "front")
               ∧ is_Some (attrs !! "title")
               ∧ attrs !! "href" = Some h.
Proof.
  apply (get_idol_links_default_lists_titled_anchors
           Scraping.serve_front_page "http://seed/" "front").
  - reflexivity.
  - intros attrs cs Hin _. by apply (front_page_anchors_have_href attrs cs).
Defined.

(** * Properties of the co-starring graph *)

Module CommNetworkFacts.

Import CommNetwork.

(** ** Two-level dictionaries *)

Lemma lookup_set_adj u v w a x y :
  set_adj u v w a !! x ≫= (λ nbrs, nbrs !! y)
  = if decide (x = u ∧ y = v) then Some w
    else a !! x ≫= (λ nbrs, nbrs !! y).
Proof.
  unfold set_adj. destruct (decide (x = u)) as [->|Hx].
  - rewrite lookup_insert_eq. simpl.
    destruct (decide (y = v)) as [->|Hy].
    + rewrite lookup_insert_eq. by rewrite decide_True.
    + rewrite lookup_insert_ne by done. rewrite decide_False by naive_solver.
      by destruct (a !! u).
  - rewrite lookup_insert_ne by done. by rewrite decide_False by naive_solver.
Qed.

Lemma lookup_del_adj u v a x y :
  u ∈ dom a →
  del_adj u v a !! x ≫= (λ nbrs, nbrs !! y)
  = if decide (x = u ∧ y = v) then None
    else a !! x ≫= (λ nbrs, nbrs !! y).
Proof.
  intros Hu. unfold del_adj. destruct (decide (x = u)) as [->|Hx].
  - rewrite lookup_insert_eq. simpl.
    destruct (decide (y = v)) as [->|Hy].
    + rewrite lookup_delete_eq. by rewrite decide_True.
    + rewrite lookup_delete_ne by done. rewrite decide_False by naive_solver.
      by destruct (a !! u).
  - rewrite lookup_insert_ne by done. by rewrite decide_False by naive_solver.
Qed.

Lemma dom_set_adj u v w a : dom (set_adj u v w a) = {[u]} ∪ dom a.
Proof. unfold set_adj. by rewrite dom_insert_L. Qed.

Lemma dom_del_adj u v a : dom (del_adj u v a) = {[u]} ∪ dom a.
Proof. unfold del_adj. by rewrite dom_insert_L. Qed.

Lemma weight_Some_dom G u v :
  is_Some (weight G u v) → u ∈ dom (g_adj G).
Proof.
  unfold weight. intros [w Hw]. apply elem_of_dom.
  destruct (g_adj G !! u); [done|discriminate].
Qed.

Lemma has_edge_spec u v G : has_edge u v G = true ↔ is_Some (weight G u v).
Proof.
  unfold has_edge, weight. destruct (g_adj G !! u) as [nbrs|]; simpl.
  - by rewrite bool_decide_eq_true.
  - split; [done|]. by intros [? ?].
Qed.

(** ** The operations keep the graph well formed *)

Lemma well_formed_empty : well_formed empty_graph.
Proof.
  split; [done|]. split; [|done]. intros u v [w Hw]. done.
Qed.

Lemma weight_add_node n G x y :
  well_formed G → weight (add_node n G) x y = weight G x y.
Proof.
  intros (Hdom & _ & _). unfold add_node.
  destruct (g_node G !! n) eqn:Hn; [done|].
  unfold weight. simpl. destruct (decide (x = n)) as [->|Hx].
  - rewrite lookup_insert_eq. simpl. rewrite lookup_empty.
    assert (Hnone : g_adj G !! n = None).
    { apply not_elem_of_dom. rewrite <- Hdom. by apply not_elem_of_dom. }
    by rewrite Hnone.
  - by rewrite lookup_insert_ne.
Qed.

Lemma dom_add_node n G :
  dom (g_node (add_node n G)) = {[n]} ∪ dom (g_node G).
Proof.
  unfold add_node. destruct (g_node G !! n) eqn:Hn; simpl.
  - assert (n ∈ dom (g_node G)) by (apply elem_of_dom; eauto). set_solver.
  - by rewrite dom_insert_L.
Qed.

Lemma well_formed_add_node n G : well_formed G → well_formed (add_node n G).
Proof.
  intros HG. pose proof HG as (Hdom & Hnb & Hsym).
  assert (Hadj : dom (g_adj (add_node n G)) = {[n]} ∪ dom (g_adj G)).
  { unfold add_node. destruct (g_node G !! n) eqn:Hn; simpl.
    - assert (n ∈ dom (g_node G)) by (apply elem_of_dom; eauto). set_solver.
    - by rewrite dom_insert_L. }
  split; [|split].
  - by rewrite dom_add_node, Hadj, Hdom.
  - intros u v. rewrite weight_add_node by done. intros H%Hnb.
    rewrite Hadj. set_solver.
  - intros u v. by rewrite !weight_add_node.
Qed.

Lemma weight_add_edge u v w G x y :
  well_formed G →
  weight (add_edge u v w G) x y
  = if decide ((x = u ∧ y = v) ∨ (x = v ∧ y = u)) then Some w
    else weight G x y.
Proof.
  intros HG. unfold add_edge, weight at 1. cbn [g_adj].
  rewrite !lookup_set_adj.
  fold (weight (add_node v (add_node u G)) x y).
  rewrite !weight_add_node by auto using well_formed_add_node.
  repeat case_decide; naive_solver.
Qed.

Lemma dom_add_edge u v w G :
  dom (g_node (add_edge u v w G)) = {[u; v]} ∪ dom (g_node G).
Proof. unfold add_edge. cbn [g_node]. rewrite !dom_add_node. set_solver. Qed.

Lemma well_formed_add_edge u v w G :
  well_formed G → well_formed (add_edge u v w G).
Proof.
  intros HG.
  pose proof (well_formed_add_node v _ (well_formed_add_node u _ HG))
    as (Hdom & Hnb & Hsym).
  assert (Hadj : dom (g_adj (add_edge u v w G))
                 = dom (g_adj (add_node v (add_node u G)))).
  { unfold add_edge. cbn [g_adj]. rewrite !dom_set_adj.
    rewrite <- Hdom, !dom_add_node. set_solver. }
  split; [|split].
  - rewrite Hadj. unfold add_edge. by cbn [g_node].
  - intros x y. rewrite weight_add_edge by done. rewrite Hadj.
    case_decide as Hxy.
    + intros _. rewrite <- Hdom, !dom_add_node. set_solver.
    + intros H. rewrite <- (weight_add_node u), <- (weight_add_node v) in H
        by auto using well_formed_add_node.
      by apply Hnb in H.
  - intros x y. rewrite !weight_add_edge by done.
    destruct HG as (_ & _ & HsymG). rewrite (HsymG x y).
    repeat case_decide; naive_solver.
Qed.

Lemma incr_weight_spec u v G w0 :
  well_formed G → weight G u v = Some w0 →
  ∃ G', incr_weight u v G = Ok G'
        ∧ well_formed G'
        ∧ g_node G' = g_node G
        ∧ ∀ x y, weight G' x y
                 = if decide ((x = u ∧ y = v) ∨ (x = v ∧ y = u))
                   then Some (w0 + 1) else weight G x y.
Proof.
  intros HG Hw. pose proof HG as (Hdom & Hnb & Hsym).
  unfold incr_weight. rewrite Hw. eexists. split; [done|].
  assert (Hu : u ∈ dom (g_adj G)) by (apply (weight_Some_dom G u v); eauto).
  assert (Hv : v ∈ dom (g_adj G)) by (apply (Hnb u v); eauto).
  assert (Hwt : ∀ x y,
    weight (mkGraph (g_node G)
              (if decide (u = v) then set_adj u v (w0 + 1) (g_adj G)
               else set_adj v u (w0 + 1) (set_adj u v (w0 + 1) (g_adj G))))
      x y
    = if decide ((x = u ∧ y = v) ∨ (x = v ∧ y = u))
      then Some (w0 + 1) else weight G x y).
  { intros x y. unfold weight at 1. cbn [g_adj].
    destruct (decide (u = v)) as [->|Huv].
    - rewrite lookup_set_adj. repeat case_decide; naive_solver.
    - rewrite !lookup_set_adj. repeat case_decide; naive_solver. }
  split; [|split; [done|exact Hwt]].
  split; [|split].
  - cbn [g_node g_adj]. destruct (decide (u = v));
      rewrite ?dom_set_adj; set_solver.
  - intros x y. rewrite Hwt. cbn [g_adj].
    assert (Hd : dom (if decide (u = v)
                      then set_adj u v (w0 + 1) (g_adj G)
                      else set_adj v u (w0 + 1)
                             (set_adj u v (w0 + 1) (g_adj G)))
                 = dom (g_adj G)).
    { destruct (decide (u = v)); rewrite ?dom_set_adj; set_solver. }
    rewrite Hd.
    destruct (decide ((x = u ∧ y = v) ∨ (x = v ∧ y = u))) as [Hxy|Hxy];
      [|apply Hnb].
    intros _. by destruct Hxy as [[_ ->]|[_ ->]].
  - intros x y. rewrite !Hwt, (Hsym x y).
    repeat case_decide; naive_solver.
Qed.

Lemma remove_edge_spec u v G w0 :
  well_formed G → weight G u v = Some w0 →
  ∃ G', remove_edge u v G = Ok G'
        ∧ well_formed G'
        ∧ g_node G' = g_node G
        ∧ ∀ x y, weight G' x y
                 = if decide ((x = u ∧ y = v) ∨ (x = v ∧ y = u))
                   then None else weight G x y.
Proof.
  intros HG Hw. pose proof HG as (Hdom & Hnb & Hsym).
  unfold remove_edge. rewrite Hw. eexists. split; [done|].
  assert (Hu : u ∈ dom (g_adj G)) by (apply (weight_Some_dom G u v); eauto).
  assert (Hv : v ∈ dom (g_adj G)) by (apply (Hnb u v); eauto).
  assert (Hwt : ∀ x y,
    weight (mkGraph (g_node G)
              (if decide (u = v) then del_adj u v (g_adj G)
               else del_adj v u (del_adj u v (g_adj G))))
      x y
    = if decide ((x = u ∧ y = v) ∨ (x = v ∧ y = u))
      then None else weight G x y).
  { intros x y. unfold weight at 1. cbn [g_adj].
    destruct (decide (u = v)) as [->|Huv].
    - rewrite lookup_del_adj by done. repeat case_decide; naive_solver.
    - rewrite !lookup_del_adj by (rewrite ?dom_del_adj; set_solver).
      repeat case_decide; naive_solver. }
  split; [|split; [done|exact Hwt]].
  assert (Hd : dom (if decide (u = v) then del_adj u v (g_adj G)
                    else del_adj v u (del_adj u v (g_adj G)))
               = dom (g_adj G)).
  { destruct (decide (u = v)); rewrite ?dom_del_adj; set_solver. }
  split; [|split].
  - cbn [g_node g_adj]. by rewrite Hd.
  - intros x y. rewrite Hwt. cbn [g_adj]. rewrite Hd.
    destruct (decide ((x = u ∧ y = v) ∨ (x = v ∧ y = u))) as [Hxy|Hxy];
      [by intros [? ?]|apply Hnb].
  - intros x y. rewrite !Hwt, (Hsym x y).
    repeat case_decide; naive_solver.
Qed.

(** ** Counting the edges *)

Lemma joins_spec x y a b :
  joins x y (a, b) = true ↔ (x = a ∧ y = b) ∨ (x = b ∧ y = a).
Proof. unfold joins. rewrite bool_decide_eq_true. naive_solver. Qed.

Lemma co_starring_cons e es x y :
  co_starring (e :: es) x y
  = (if joins x y e then 1 else 0) + co_starring es x y.
Proof. unfold co_starring. simpl. by destruct (joins x y e). Qed.

Lemma count_step a b G :
  well_formed G →
  ∃ G1,
    (if has_edge a b G then incr_weight a b G else Ok (add_edge a b 1 G))
    = Ok G1
    ∧ well_formed G1
    ∧ dom (g_node G1) = {[a; b]} ∪ dom (g_node G)
    ∧ ∀ x y, weight G1 x y
             = if joins x y (a, b)
               then Some (default 0 (weight G x y) + 1)
               else weight G x y.
Proof.
  intros HG. pose proof HG as (Hdom & Hnb & Hsym).
  destruct (has_edge a b G) eqn:He.
  - apply has_edge_spec in He as [w0 Hw].
    destruct (incr_weight_spec a b G w0 HG Hw) as (G1 & -> & HG1 & Hn & Hwt).
    exists G1. split; [done|]. split; [done|]. split.
    + rewrite Hn.
      assert (a ∈ dom (g_node G)).
      { rewrite Hdom. apply (weight_Some_dom G a b). eauto. }
      assert (b ∈ dom (g_node G)) by (rewrite Hdom; apply (Hnb a b); eauto).
      set_solver.
    + intros x y. rewrite Hwt.
      destruct (joins x y (a, b)) eqn:Hj.
      * apply joins_spec in Hj. rewrite decide_True by done.
        destruct Hj as [[-> ->]|[-> ->]]; [by rewrite Hw|].
        by rewrite (Hsym b a), Hw.
      * rewrite decide_False; [done|]. intros Hj'%joins_spec. congruence.
  - assert (Hnone : weight G a b = None).
    { destruct (weight G a b) eqn:Hw; [|done].
      assert (has_edge a b G = true) by (apply has_edge_spec; eauto).
      congruence. }
    exists (add_edge a b 1 G). split; [done|].
    split; [by apply well_formed_add_edge|].
    split; [apply dom_add_edge|].
    intros x y. rewrite weight_add_edge by done.
    destruct (joins x y (a, b)) eqn:Hj.
    + apply joins_spec in Hj. rewrite decide_True by done.
      destruct Hj as [[-> ->]|[-> ->]]; [by rewrite Hnone|].
      by rewrite (Hsym b a), Hnone.
    + rewrite decide_False; [done|]. intros Hj'%joins_spec. congruence.
Qed.

Lemma add_edges_spec es G :
  well_formed G →
  ∃ G',
    add_edges es G = Ok G'
    ∧ well_formed G'
    ∧ dom (g_node G')
      = list_to_set es.*1 ∪ list_to_set es.*2 ∪ dom (g_node G)
    ∧ ∀ x y, weight G' x y
             = if Nat.eqb (co_starring es x y) 0 then weight G x y
               else Some (default 0 (weight G x y) + co_starring es x y).
Proof.
  revert G. induction es as [|[a b] es IH]; intros G HG.
  - exists G. split; [done|]. split; [done|]. split; [set_solver|done].
  - destruct (count_step a b G HG) as (G1 & Hstep & HG1 & Hd1 & Hw1).
    destruct (IH G1 HG1) as (G' & Hrun & HG' & Hd' & Hw').
    exists G'. split; [|split; [done|split]].
    + cbn [add_edges]. destruct (has_edge a b G).
      * by rewrite Hstep.
      * by injection Hstep as ->.
    + rewrite Hd', Hd1. simpl. set_solver.
    + intros x y. rewrite Hw', Hw1, co_starring_cons.
      destruct (joins x y (a, b)); destruct (co_starring es x y) as [|k] eqn:Hk;
        simpl; try done.
      f_equal. lia.
Qed.

(** ** The first loops of the script *)

Lemma char_class_matches cs u :
  matches (char_class cs) u ↔ ∃ c, c ∈ cs ∧ u = [c].
Proof.
  induction cs as [|c cs IH]; simpl.
  - split; [inversion 1|]. by intros (c & ?%elem_of_nil & _).
  - split.
    + intros [H|H]%ReFacts.matches_alt_inv.
      * inversion H; subst. exists c. split; [by left|done].
      * apply IH in H as (c' & Hc' & ->). exists c'. split; [by right|done].
    + intros (c' & [->|Hc']%elem_of_cons & ->).
      * apply m_alt_l. constructor.
      * apply m_alt_r, IH. eauto.
Qed.

Lemma starts_with_letter_first s :
  starts_with_letter s = true
  ↔ ∃ c rest, s = String c rest ∧ c ∈ ascii_letters.
Proof.
  unfold starts_with_letter. rewrite ReFacts.prefix_match_spec. split.
  - intros (u & v & Hs & (c & Hc & ->)%char_class_matches).
    destruct s as [|c' rest]; [done|]. simpl in Hs. injection Hs as -> _.
    eauto.
  - intros (c & rest & -> & Hc). exists [c], (list_ascii_of_string rest).
    split; [done|]. apply char_class_matches. eauto.
Qed.

Lemma ascii_letters_range c :
  bool_decide (c ∈ ascii_letters)
  = (Nat.leb 65 (nat_of_ascii c) && Nat.leb (nat_of_ascii c) 90)
    || (Nat.leb 97 (nat_of_ascii c) && Nat.leb (nat_of_ascii c) 122).
Proof. destruct c as [[] [] [] [] [] [] [] []]; by vm_compute. Qed.

Lemma elem_of_characters rows c :
  c ∈ characters rows ↔ ∃ row, row ∈ rows ∧ c ∈ row.
Proof.
  unfold characters.
  rewrite elem_of_elements, elem_of_list_to_set, list_elem_of_In, in_concat.
  split; intros (row & Hr & Hc); exists row;
    by rewrite ?list_elem_of_In in *.
Qed.

Lemma add_characters_fold l G :
  well_formed G →
  let G' := foldl (λ G character,
                     if starts_with_letter character then G
                     else add_node character G) G l in
  well_formed G'
  ∧ (∀ x y, weight G' x y = weight G x y)
  ∧ ∀ n, n ∈ dom (g_node G')
         ↔ n ∈ dom (g_node G) ∨ (n ∈ l ∧ starts_with_letter n = false).
Proof.
  revert G. induction l as [|c l IH]; intros G HG; simpl.
  - split; [done|]. split; [done|]. intros n. split; [by left|].
    by intros [?|[?%elem_of_nil _]].
  - destruct (starts_with_letter c) eqn:Hc.
    + destruct (IH G HG) as (Hwf & Hw & Hd). split; [done|]. split; [done|].
      intros n. rewrite Hd, elem_of_cons. naive_solver congruence.
    + destruct (IH (add_node c G) (well_formed_add_node c G HG))
        as (Hwf & Hw & Hd).
      split; [done|]. split.
      * intros x y. by rewrite Hw, weight_add_node.
      * intros n. rewrite Hd, dom_add_node, elem_of_cons.
        rewrite elem_of_union, elem_of_singleton. naive_solver.
Qed.

Lemma edge_list_spec rows :
  edge_list rows
  = if decide ([] ∈ rows) then Err IndexError else Ok (co_star_pairs rows).
Proof.
  induction rows as [|row rows IH]; cbn [edge_list].
  - destruct (decide ([] ∈ [])) as [H|H]; [by apply elem_of_nil in H|done].
  - destruct row as [|center co_stars].
    + destruct (decide ([] ∈ [] :: rows)) as [H|H]; [done|].
      destruct H. by left.
    + unfold co_star_pairs. rewrite bind_cons. fold (co_star_pairs rows).
      rewrite IH. destruct (decide ([] ∈ rows)) as [Hin|Hin];
        destruct (decide ([] ∈ (center :: co_stars) :: rows)) as [H|H].
      * by destruct (starts_with_letter _).
      * destruct H. by right.
      * by apply elem_of_cons in H as [?|?].
      * by destruct (starts_with_letter _).
Qed.

Lemma elem_of_co_star_pairs rows a b :
  (a, b) ∈ co_star_pairs rows
  ↔ ∃ co_stars, (a :: co_stars) ∈ rows ∧ b ∈ co_stars
                ∧ starts_with_letter a = false.
Proof.
  unfold co_star_pairs. rewrite list_elem_of_bind. split.
  - intros ([|center co_stars] & Hab & Hrow); [by apply elem_of_nil in Hab|].
    destruct (starts_with_letter center) eqn:Hc;
      [by apply elem_of_nil in Hab|].
    apply list_elem_of_fmap in Hab as (b' & [= -> ->] & Hb). eauto.
  - intros (co_stars & Hrow & Hb & Ha). exists (a :: co_stars).
    split; [|done]. rewrite Ha. by apply list_elem_of_fmap_2.
Qed.

(** The graph that the script has built when the rows hold no empty row. *)
Lemma build_spec rows :
  [] ∉ rows →
  ∃ G,
    build rows = Ok G
    ∧ well_formed G
    ∧ (∀ x y, weight G x y
              = if Nat.eqb (co_starring (co_star_pairs rows) x y) 0 then None
                else Some (co_starring (co_star_pairs rows) x y))
    ∧ ∀ n, n ∈ dom (g_node G)
           ↔ (starts_with_letter n = false ∧ ∃ row, row ∈ rows ∧ n ∈ row)
             ∨ (∃ center co_stars,
                  (center :: co_stars) ∈ rows ∧ n ∈ co_stars
                  ∧ starts_with_letter center = false).
Proof.
  intros Hrows. unfold build. rewrite edge_list_spec, decide_False by done.
  destruct (add_characters_fold (characters rows) empty_graph well_formed_empty)
    as (Hwf0 & Hw0 & Hd0).
  fold (add_characters rows empty_graph) in Hwf0, Hw0, Hd0.
  destruct (add_edges_spec (co_star_pairs rows) _ Hwf0)
    as (G & Hrun & Hwf & Hd & Hw).
  exists G. split; [done|]. split; [done|]. split.
  - intros x y. rewrite Hw, Hw0. by destruct (_ =? _)%nat.
  - intros n. rewrite Hd, !elem_of_union, !elem_of_list_to_set, Hd0.
    rewrite elem_of_characters. split.
    + intros [[Hn|Hn]|[Hn|[Hn Hl]]].
      * apply list_elem_of_fmap in Hn as ([a b] & -> & Hab).
        apply elem_of_co_star_pairs in Hab as (co & Hrow & Hb & Ha).
        left. split; [done|]. exists (a :: co). split; [done|by left].
      * apply list_elem_of_fmap in Hn as ([a b] & -> & Hab).
        apply elem_of_co_star_pairs in Hab as (co & Hrow & Hb & Ha).
        right. eauto.
      * cbn [empty_graph g_node] in Hn. by rewrite dom_empty_L in Hn.
      * by left.
    + intros [[Hl Hn]|(center & co & Hrow & Hn & Hc)].
      * right. by right.
      * left. right. apply list_elem_of_fmap. exists (center, n).
        split; [done|]. apply elem_of_co_star_pairs. eauto.
Qed.

(** ** The enumeration of the edges *)

Lemma elem_of_node_edges (n : string) (nbrs : gmap string nat)
    (seen : gset string) (u v : string) (d : nat) :
  (u, v, d) ∈ ((λ '(nbr, w), (n, nbr, w)) <$>
                 List.filter (λ '(nbr, _), bool_decide (nbr ∉ seen))
                   (map_to_list nbrs))
  ↔ u = n ∧ nbrs !! v = Some d ∧ v ∉ seen.
Proof.
  rewrite list_elem_of_fmap. split.
  - intros ([nbr w] & [= -> -> ->] & Hin).
    apply list_elem_of_In, filter_In in Hin as [Hin Hseen].
    apply list_elem_of_In, elem_of_map_to_list in Hin.
    by apply bool_decide_eq_true in Hseen.
  - intros (-> & Hv & Hseen). exists (v, d). split; [done|].
    apply list_elem_of_In, filter_In. split.
    + by apply list_elem_of_In, elem_of_map_to_list.
    + by apply bool_decide_eq_true.
Qed.

Lemma edges_from_sound ns seen u v d :
  (u, v, d) ∈ edges_from ns seen →
  ∃ nbrs, (u, nbrs) ∈ ns ∧ nbrs !! v = Some d ∧ v ∉ seen.
Proof.
  revert seen. induction ns as [|[n nbrs] ns IH]; intros seen; simpl.
  - by intros ?%elem_of_nil.
  - intros [H|H]%elem_of_app.
    + apply elem_of_node_edges in H as (-> & Hv & Hseen).
      exists nbrs. split; [by left|done].
    + apply IH in H as (nu & Hin & Hv & Hseen).
      exists nu. split; [by right|]. split; [done|set_solver].
Qed.

Lemma key_not_in_tail {A} n (x y : A) (ns : list (string * A)) :
  NoDup ((n, x) :: ns).*1 → (n, y) ∉ ns.
Proof.
  simpl. intros [Hn _]%NoDup_cons Hin. apply Hn.
  apply list_elem_of_fmap. by exists (n, y).
Qed.

Lemma edges_from_complete ns seen u nu v d :
  NoDup ns.*1 →
  (∀ n nbrs, (n, nbrs) ∈ ns → n ∉ seen) →
  (∀ x nx y w, (x, nx) ∈ ns → nx !! y = Some w →
               y ∈ seen ∨ ∃ ny, (y, ny) ∈ ns ∧ ny !! x = Some w) →
  (u, nu) ∈ ns → nu !! v = Some d → v ∉ seen →
  (u, v, d) ∈ edges_from ns seen ∨ (v, u, d) ∈ edges_from ns seen.
Proof.
  revert seen. induction ns as [|[n nbrs] ns IH];
    intros seen Hnd Hkeys Hsym Hu Hv Hseen; [by apply elem_of_nil in Hu|].
  cbn [edges_from]. rewrite !elem_of_app, !elem_of_node_edges.
  apply elem_of_cons in Hu as [[= -> ->]|Hu]; [by left; left|].
  destruct (decide (v = n)) as [->|Hvn].
  - right. left. split; [done|].
    destruct (Hsym u nu n d) as [?|(ny & Hny & Hw)]; [by right|done|done|].
    apply elem_of_cons in Hny as [[= ->]|Hny].
    + split; [done|]. apply (Hkeys u nu). by right.
    + by destruct (key_not_in_tail n nbrs ny ns Hnd).
  - assert (Hnd' : NoDup ns.*1) by (by apply NoDup_cons in Hnd as [_ ?]).
    destruct (IH ({[n]} ∪ seen) Hnd') as [H|H]; auto.
    + intros n' nbrs' Hin. apply not_elem_of_union. split.
      * intros ->%elem_of_singleton.
        by destruct (key_not_in_tail n nbrs nbrs' ns Hnd).
      * apply (Hkeys n' nbrs'). by right.
    + intros x nx y w Hx Hy.
      destruct (Hsym x nx y w) as [?|(ny & Hny & Hw)]; [by right|done| |].
      * left. set_solver.
      * apply elem_of_cons in Hny as [[= -> ->]|Hny]; [left; set_solver|].
        right. eauto.
    + set_solver.
Qed.

Lemma distinct_edges_app l1 l2 :
  distinct_edges l1 → distinct_edges l2 →
  (∀ u v d d', (u, v, d) ∈ l1 → ((u, v, d') ∉ l2) ∧ ((v, u, d') ∉ l2)) →
  distinct_edges (l1 ++ l2).
Proof.
  induction l1 as [|[[u v] d] l1 IH]; intros H1 H2 Hx; [done|].
  simpl in *. destruct H1 as [Hhead H1]. split.
  - intros d'. rewrite !elem_of_app.
    destruct (Hhead d') as [? ?].
    destruct (Hx u v d d') as [? ?]; [by left|]. naive_solver.
  - apply IH; [done|done|]. intros u' v' d1 d2 Hin.
    apply (Hx u' v' d1 d2). by right.
Qed.

Lemma distinct_node_edges n (l : list (string * nat)) :
  NoDup l.*1 → distinct_edges ((λ '(nbr, w), (n, nbr, w)) <$> l).
Proof.
  induction l as [|[nbr w] l IH]; [done|]. simpl.
  intros [Hnbr Hnd]%NoDup_cons. split; [|by apply IH].
  intros d. split.
  - intros ([nbr' w'] & [= -> ->] & Hin)%list_elem_of_fmap.
    apply Hnbr, list_elem_of_fmap. by exists (nbr', w').
  - intros ([nbr' w'] & [= -> -> ->] & Hin)%list_elem_of_fmap.
    apply Hnbr, list_elem_of_fmap. by exists (nbr', w').
Qed.

Lemma NoDup_fst_filter {A} (f : string * A → bool) (l : list (string * A)) :
  NoDup l.*1 → NoDup (List.filter f l).*1.
Proof.
  induction l as [|[k x] l IH]; [done|]. simpl.
  intros [Hk Hnd]%NoDup_cons. destruct (f (k, x)); [|by apply IH].
  simpl. apply NoDup_cons. split; [|by apply IH].
  intros ([k' x'] & -> & Hin)%list_elem_of_fmap.
  apply list_elem_of_In, filter_In in Hin as [Hin _].
  apply Hk, list_elem_of_fmap. exists (k', x'). split; [done|].
  by apply list_elem_of_In.
Qed.

Lemma edges_from_distinct ns seen :
  NoDup ns.*1 → distinct_edges (edges_from ns seen).
Proof.
  revert seen. induction ns as [|[n nbrs] ns IH]; intros seen Hnd; [done|].
  assert (Hnd' : NoDup ns.*1) by (by apply NoDup_cons in Hnd as [_ ?]).
  cbn [edges_from]. apply distinct_edges_app.
  - apply distinct_node_edges, NoDup_fst_filter, NoDup_fst_map_to_list.
  - by apply IH.
  - intros u v d d' (-> & _ & _)%elem_of_node_edges. split.
    + intros (nu & Hin & _)%edges_from_sound.
      by destruct (key_not_in_tail n nbrs nu ns Hnd).
    + intros (nu & _ & _ & Hseen)%edges_from_sound. set_solver.
Qed.

Lemma weight_Some_iff G u v d :
  weight G u v = Some d
  ↔ ∃ nu, (u, nu) ∈ map_to_list (g_adj G) ∧ nu !! v = Some d.
Proof.
  unfold weight. split.
  - destruct (g_adj G !! u) as [nu|] eqn:Hu; [|done]. simpl. intros Hv.
    exists nu. split; [by apply elem_of_map_to_list|done].
  - intros (nu & Hu%elem_of_map_to_list & Hv). by rewrite Hu.
Qed.

Lemma edges_sound G u v d : (u, v, d) ∈ edges G → weight G u v = Some d.
Proof.
  intros (nu & Hu & Hv & _)%edges_from_sound. apply weight_Some_iff. eauto.
Qed.

Lemma edges_complete G u v d :
  well_formed G → weight G u v = Some d →
  (u, v, d) ∈ edges G ∨ (v, u, d) ∈ edges G.
Proof.
  intros (_ & _ & Hsym) (nu & Hu & Hv)%weight_Some_iff.
  apply (edges_from_complete _ ∅ u nu v d); try done.
  - apply NoDup_fst_map_to_list.
  - intros x nx y w Hx Hy. right. apply weight_Some_iff.
    rewrite <- Hsym. apply weight_Some_iff. eauto.
Qed.

Lemma edges_distinct G : distinct_edges (edges G).
Proof. apply edges_from_distinct, NoDup_fst_map_to_list. Qed.

(** ** Pruning *)

Lemma prune_loop_spec es G :
  well_formed G → distinct_edges es →
  (∀ u v d, (u, v, d) ∈ es → weight G u v = Some d) →
  ∃ G',
    prune_loop es G = Ok G'
    ∧ well_formed G'
    ∧ g_node G' = g_node G
    ∧ ∀ x y,
        ((∃ d, (d ≤ 1)%nat ∧ ((x, y, d) ∈ es ∨ (y, x, d) ∈ es)) →
         weight G' x y = None)
        ∧ ((¬ ∃ d, (d ≤ 1)%nat ∧ ((x, y, d) ∈ es ∨ (y, x, d) ∈ es)) →
           weight G' x y = weight G x y).
Proof.
  revert G. induction es as [|[[u v] d] es IH]; intros G HG Hdist Hes.
  - exists G. split; [done|]. split; [done|]. split; [done|].
    intros x y. split; [|done].
    intros (d & _ & [?%elem_of_nil|?%elem_of_nil]); done.
  - destruct Hdist as [Hhead Hdist]. cbn [prune_loop].
    destruct (Nat.leb_spec d 1) as [Hd|Hd].
    + destruct (remove_edge_spec u v G d HG) as (G1 & -> & HG1 & Hn1 & Hw1).
      { apply Hes. by left. }
      assert (Hrest : ∀ x y, (∃ d', (x, y, d') ∈ es ∨ (y, x, d') ∈ es) →
                             ¬ ((x = u ∧ y = v) ∨ (x = v ∧ y = u))).
      { intros x y (d' & Hin) [[-> ->]|[-> ->]];
          destruct (Hhead d') as [? ?]; naive_solver. }
      destruct (IH G1 HG1 Hdist) as (G' & Hrun & HG' & Hn' & Hw').
      { intros x y d' Hin. rewrite Hw1, decide_False; [|apply Hrest; eauto].
        apply Hes. by right. }
      exists G'. split; [done|]. split; [done|].
      split; [by rewrite Hn', Hn1|].
      intros x y. destruct (Hw' x y) as [Hnone Hsame]. split.
      * intros (d' & Hd' & Hin).
        destruct (decide ((x = u ∧ y = v) ∨ (x = v ∧ y = u))) as [Huv|Huv].
        -- rewrite Hsame, Hw1, decide_True; [done|done|].
           intros (d'' & _ & Hin''). apply (Hrest x y); eauto.
        -- apply Hnone. exists d'. split; [done|].
           rewrite !elem_of_cons in Hin. naive_solver.
      * intros Hno. rewrite Hsame, Hw1, decide_False; [done| |].
        -- intros Huv. apply Hno. exists d. split; [done|].
           rewrite !elem_of_cons. naive_solver.
        -- intros (d' & Hd' & Hin). apply Hno. exists d'. split; [done|].
           rewrite !elem_of_cons. naive_solver.
    + destruct (IH G HG Hdist) as (G' & Hrun & HG' & Hn' & Hw').
      { intros x y d' Hin. apply Hes. by right. }
      exists G'. split; [done|]. split; [done|]. split; [done|].
      intros x y. destruct (Hw' x y) as [Hnone Hsame]. split.
      * intros (d' & Hd' & Hin). apply Hnone. exists d'. split; [done|].
        rewrite !elem_of_cons in Hin.
        destruct Hin as [[[= -> -> ->]|?]|[[= -> -> ->]|?]]; auto; lia.
      * intros Hno. apply Hsame. intros (d' & Hd' & Hin). apply Hno.
        exists d'. split; [done|]. rewrite !elem_of_cons. naive_solver.
Qed.

Lemma prune_spec G :
  well_formed G →
  ∃ G',
    prune G = Ok G'
    ∧ well_formed G'
    ∧ g_node G' = g_node G
    ∧ ∀ a b, weight G' a b
             = match weight G a b with
               | Some w => if Nat.leb w 1 then None else Some w
               | None => None
               end.
Proof.
  intros HG. pose proof HG as (_ & _ & Hsym).
  destruct (prune_loop_spec (edges G) G HG (edges_distinct G))
    as (G' & Hrun & HG' & Hn & Hw).
  { intros u v d. apply edges_sound. }
  exists G'. split; [done|]. split; [done|]. split; [done|].
  intros a b. destruct (Hw a b) as [Hnone Hsame].
  assert (Hin : ∀ d, (a, b, d) ∈ edges G ∨ (b, a, d) ∈ edges G →
                     weight G a b = Some d).
  { intros d [H|H]; apply edges_sound in H; [done|by rewrite Hsym]. }
  destruct (weight G a b) as [w|] eqn:Hab.
  - destruct (Nat.leb_spec w 1) as [Hle|Hgt].
    + apply Hnone. exists w. split; [done|]. by apply edges_complete.
    + rewrite Hsame; [done|]. intros (d & Hd & Hd').
      apply Hin in Hd'. injection Hd' as ->. lia.
  - rewrite Hsame; [done|]. intros (d & _ & Hd'). by apply Hin in Hd'.
Qed.

Lemma example_rows_no_empty_row : [] ∉ example_rows.
Proof.
  intros H. unfold example_rows in H.
  repeat (apply elem_of_cons in H as [H|H]; [discriminate|]).
  by apply elem_of_nil in H.
Qed.

End CommNetworkFacts.

(** ** The script that builds the graph *)

Lemma build_raises_on_empty_row rows :
  [] ∈ rows →
  CommNetwork.build rows = CommNetwork.Err CommNetwork.IndexError.
Proof.
  intros Hin. unfold CommNetwork.build.
  by rewrite CommNetworkFacts.edge_list_spec, decide_True.
Qed.

(** X21. The part of the script that builds the graph fails exactly when
    the rows hold an empty row, and then with the [IndexError] of
    [row[0]]; the weights are never looked up for an edge that is not
    there. *)
Theorem build_fails_iff_empty_row rows e :
  CommNetwork.build rows = CommNetwork.Err e
  ↔ e = CommNetwork.IndexError ∧ [] ∈ rows.
Proof.
  destruct (decide ([] ∈ rows)) as [Hin|Hin].
  - unfold CommNetwork.build.
    rewrite CommNetworkFacts.edge_list_spec, decide_True by done.
    split; [by intros [= <-]|by intros [-> _]].
  - destruct (CommNetworkFacts.build_spec rows Hin) as (G & -> & _).
    split; [done|]. by intros [_ ?].
Qed.

(** X22. For rows without an empty row the script builds a graph in which
    two names are joined exactly when they stand together, as the centre
    that does not start with a letter and one of its co-stars, in either
    order, in some row; the weight of the edge is the number of times
    they do, and it is the same seen from both ends. *)
Theorem build_weights_count_co_starring rows :
  [] ∉ rows →
  ∃ G,
    CommNetwork.build rows = CommNetwork.Ok G
    ∧ ∀ a b,
        CommNetwork.weight G a b
        = (if Nat.eqb (CommNetwork.co_starring
                         (CommNetwork.co_star_pairs rows) a b) 0
           then None
           else Some (CommNetwork.co_starring
                        (CommNetwork.co_star_pairs rows) a b))
        ∧ CommNetwork.weight G a b = CommNetwork.weight G b a.
Proof.
  intros Hrows.
  destruct (CommNetworkFacts.build_spec rows Hrows)
    as (G & Hrun & (_ & _ & Hsym) & Hw & _).
  exists G. split; [done|]. intros a b. split; [apply Hw|apply Hsym].
Qed.

Lemma build_weights_count_co_starring_witness :
  ∃ G,
    CommNetwork.build CommNetwork.example_rows = CommNetwork.Ok G
    ∧ ∀ a b,
        CommNetwork.weight G a b
        = (if Nat.eqb (CommNetwork.co_starring
                         (CommNetwork.co_star_pairs CommNetwork.example_rows)
                         a b) 0
           then None
           else Some (CommNetwork.co_starring
                        (CommNetwork.co_star_pairs CommNetwork.example_rows)
                        a b))
        ∧ CommNetwork.weight G a b = CommNetwork.weight G b a.
Proof.
  apply (build_weights_count_co_starring CommNetwork.example_rows).
  apply CommNetworkFacts.example_rows_no_empty_row.
Defined.

(** X23. The nodes of the graph built from rows without an empty row are
    the names that do not start with a letter, wherever they stand, and
    all the co-stars of a centre that does not start with a letter: a
    co-star whose name starts with a letter becomes a node through its
    edge. *)
Theorem build_nodes rows :
  [] ∉ rows →
  ∃ G,
    CommNetwork.build rows = CommNetwork.Ok G
    ∧ ∀ n, n ∈ dom (CommNetwork.g_node G)
           ↔ (CommNetwork.starts_with_letter n = false
              ∧ ∃ row, row ∈ rows ∧ n ∈ row)
             ∨ (∃ center co_stars,
                  (center :: co_stars) ∈ rows ∧ n ∈ co_stars
                  ∧ CommNetwork.starts_with_letter center = false).
Proof.
  intros Hrows.
  destruct (CommNetworkFacts.build_spec rows Hrows) as (G & Hrun & _ & _ & Hd).
  by exists G.
Qed.

Lemma build_nodes_witness :
  ∃ G,
    CommNetwork.build CommNetwork.example_rows = CommNetwork.Ok G
    ∧ ∀ n, n ∈ dom (CommNetwork.g_node G)
           ↔ (CommNetwork.starts_with_letter n = false
              ∧ ∃ row, row ∈ CommNetwork.example_rows ∧ n ∈ row)
             ∨ (∃ center co_stars,
                  (center :: co_stars) ∈ CommNetwork.example_rows
                  ∧ n ∈ co_stars
                  ∧ CommNetwork.starts_with_letter center = false).
Proof.
  apply (build_nodes CommNetwork.example_rows).
  apply CommNetworkFacts.example_rows_no_empty_row.
Defined.

(** X24. The test [re.match('[a-zA-Z]', s)] of the script succeeds exactly
    when [s] is not empty and its first character is one of the 52
    letters from [A] to [Z] and from [a] to [z]. *)
Theorem starts_with_letter_iff_first_is_ascii_letter s :
  CommNetwork.starts_with_letter s = true
  ↔ ∃ c rest,
      s = String c rest
      ∧ ((65 ≤ nat_of_ascii c ∧ nat_of_ascii c ≤ 90)%nat
         ∨ (97 ≤ nat_of_ascii c ∧ nat_of_ascii c ≤ 122)%nat).
Proof.
  rewrite CommNetworkFacts.starts_with_letter_first.
  assert (Hrange : ∀ c, c ∈ CommNetwork.ascii_letters
                        ↔ (65 ≤ nat_of_ascii c ∧ nat_of_ascii c ≤ 90)%nat
                          ∨ (97 ≤ nat_of_ascii c ∧ nat_of_ascii c ≤ 122)%nat).
  { intros c. pose proof (CommNetworkFacts.ascii_letters_range c) as H.
    destruct (bool_decide (c ∈ CommNetwork.ascii_letters)) eqn:Hb;
      symmetry in H.
    - apply bool_decide_eq_true in Hb.
      rewrite orb_true_iff, !andb_true_iff, !Nat.leb_le in H. tauto.
    - apply bool_decide_eq_false in Hb.
      rewrite orb_false_iff, !andb_false_iff, !Nat.leb_gt in H.
      split; [done|lia]. }
  split; intros (c & rest & -> & Hc); exists c, rest; (split; [done|]);
    by apply Hrange.
Qed.

(** X25. Pruning a graph never fails.  It removes exactly the edges of
    weight one or less, keeps the others with their weights, and keeps
    every node, also the nodes that are left without an edge. *)
Theorem prune_keeps_edges_of_weight_two G :
  CommNetwork.well_formed G →
  ∃ G',
    CommNetwork.prune G = CommNetwork.Ok G'
    ∧ CommNetwork.well_formed G'
    ∧ CommNetwork.g_node G' = CommNetwork.g_node G
    ∧ ∀ a b,
        CommNetwork.weight G' a b
        = match CommNetwork.weight G a b with
          | Some w => if Nat.leb w 1 then None else Some w
          | None => None
          end.
Proof. apply CommNetworkFacts.prune_spec. Qed.

Lemma prune_keeps_edges_of_weight_two_witness :
  ∃ G',
    CommNetwork.prune
      (CommNetwork.add_edge "a" "b" 1 CommNetwork.empty_graph)
    = CommNetwork.Ok G'
    ∧ CommNetwork.well_formed G'
    ∧ CommNetwork.g_node G'
      = CommNetwork.g_node
          (CommNetwork.add_edge "a" "b" 1 CommNetwork.empty_graph)
    ∧ ∀ a b,
        CommNetwork.weight G' a b
        = match CommNetwork.weight
                  (CommNetwork.add_edge "a" "b" 1 CommNetwork.empty_graph)
                  a b with
          | Some w => if Nat.leb w 1 then None else Some w
          | None => None
          end.
Proof.
  apply (prune_keeps_edges_of_weight_two
           (CommNetwork.add_edge "a" "b" 1 CommNetwork.empty_graph)).
  apply CommNetworkFacts.well_formed_add_edge,
    CommNetworkFacts.well_formed_empty.
Defined.

(** Building the graph from rows without an empty row and pruning it
    leaves an edge between two names exactly when they stand together, as
    centre and co-star, at least twice. *)
Lemma build_then_prune rows :
  [] ∉ rows →
  ∃ G G',
    CommNetwork.build rows = CommNetwork.Ok G
    ∧ CommNetwork.prune G = CommNetwork.Ok G'
    ∧ CommNetwork.g_node G' = CommNetwork.g_node G
    ∧ (∀ a b,
         CommNetwork.weight G a b
         = if Nat.eqb (CommNetwork.co_starring
                         (CommNetwork.co_star_pairs rows) a b) 0
           then None
           else Some (CommNetwork.co_starring
                        (CommNetwork.co_star_pairs rows) a b))
    ∧ ∀ a b,
        CommNetwork.weight G' a b
        = if Nat.leb 2 (CommNetwork.co_starring
                          (CommNetwork.co_star_pairs rows) a b)
          then Some (CommNetwork.co_starring
                       (CommNetwork.co_star_pairs rows) a b)
          else None.
Proof.
  intros Hrows.
  destruct (CommNetworkFacts.build_spec rows Hrows)
    as (G & Hrun & HG & Hw & _).
  destruct (CommNetworkFacts.prune_spec G HG) as (G' & Hp & _ & Hn & Hw').
  exists G, G'. split; [done|]. split; [done|]. split; [done|].
  split; [done|].
  intros a b. rewrite Hw', Hw.
  destruct (CommNetwork.co_starring (CommNetwork.co_star_pairs rows) a b)
    as [|[|k]]; done.
Qed.

(** X26. The script, from the rows to the pruned graph, fails in two
    cases and in no other: with [IndexError] when the rows hold an empty
    row, and otherwise with [KeyError] when one of the two edges whose
    data it prints is not in the graph.  When it does not fail, it has
    printed the two numbers of joint appearances, and the pruned graph
    has an edge between two names exactly when they stand together, as
    centre and co-star, at least twice; the weight is that number. *)
Theorem script_prints_two_edges_and_prunes rows :
  let n1 := CommNetwork.co_starring (CommNetwork.co_star_pairs rows)
              "春日未来" "天海春香" in
  let n2 := CommNetwork.co_starring (CommNetwork.co_star_pairs rows)
              "春日未来" "最上静香" in
  (∀ e, CommNetwork.script rows = CommNetwork.Err e
        ↔ (e = CommNetwork.IndexError ∧ [] ∈ rows)
          ∨ (e = CommNetwork.KeyError ∧ ([] ∉ rows) ∧ (n1 = 0 ∨ n2 = 0)))
  ∧ (∀ w1 w2 G',
       CommNetwork.script rows = CommNetwork.Ok (w1, w2, G') →
       w1 = n1 ∧ w2 = n2
       ∧ ∀ a b,
           CommNetwork.weight G' a b
           = if Nat.leb 2 (CommNetwork.co_starring
                             (CommNetwork.co_star_pairs rows) a b)
             then Some (CommNetwork.co_starring
                          (CommNetwork.co_star_pairs rows) a b)
             else None).
Proof.
  intros n1 n2. unfold CommNetwork.script.
  destruct (decide ([] ∈ rows)) as [Hin|Hin].
  - assert (Hb : CommNetwork.build rows
                 = CommNetwork.Err CommNetwork.IndexError)
      by (by apply build_raises_on_empty_row).
    rewrite Hb. split; [|done]. intros e. split.
    + intros [= <-]. by left.
    + intros [[-> _]|(_ & ? & _)]; done.
  - destruct (build_then_prune rows Hin) as (G & G' & -> & -> & _ & Hw & Hw').
    unfold CommNetwork.edge_data. rewrite !Hw. fold n1 n2.
    destruct n1 as [|k1] eqn:H1; simpl.
    { split; [|done]. intros e. split.
      - intros [= <-]. right. auto.
      - intros [[_ ?]|(-> & _)]; done. }
    destruct n2 as [|k2] eqn:H2; simpl.
    { split; [|done]. intros e. split.
      - intros [= <-]. right. auto.
      - intros [[_ ?]|(-> & _)]; done. }
    split.
    + intros e. split; [done|]. intros [[_ ?]|(_ & _ & [?|?])]; done.
    + intros w1 w2 G'' [= <- <- <-]. auto.
Qed.

Lemma script_prints_two_edges_and_prunes_witness :
  ∃ G',
    CommNetwork.script CommNetwork.example_rows = CommNetwork.Ok (1, 2, G')
    ∧ CommNetwork.weight G' "春日未来" "最上静香" = Some 2
    ∧ CommNetwork.weight G' "春日未来" "天海春香" = None.
Proof.
  destruct (CommNetwork.script CommNetwork.example_rows)
    as [[[w1 w2] G']|e] eqn:Hrun; [|by vm_compute in Hrun].
  destruct (proj2 (script_prints_two_edges_and_prunes
                     CommNetwork.example_rows) w1 w2 G' Hrun)
    as (-> & -> & Hw).
  exists G'. split; [vm_compute; reflexivity|].
  rewrite !Hw. split; vm_compute; reflexivity.
Defined.

(** ** [colorize] *)

(** X27. [colorize] raises [KeyError] exactly when the node is not in the
    graph.  Otherwise it sets the attributes [color], [styled],
    [fillcolor] and [fontcolor] of the node and leaves its other
    attributes, the other nodes and the edges as they are. *)
Theorem colorize_sets_four_attributes graph node_name node_color font_color :
  (∀ e, CommNetwork.colorize graph node_name node_color font_color
        = CommNetwork.Err e
        ↔ e = CommNetwork.KeyError
          ∧ CommNetwork.g_node graph !! node_name = None)
  ∧ (∀ attrs,
       CommNetwork.g_node graph !! node_name = Some attrs →
       ∃ G' attrs',
         CommNetwork.colorize graph node_name node_color font_color
         = CommNetwork.Ok G'
         ∧ CommNetwork.g_adj G' = CommNetwork.g_adj graph
         ∧ (∀ m, m ≠ node_name →
                 CommNetwork.g_node G' !! m = CommNetwork.g_node graph !! m)
         ∧ CommNetwork.g_node G' !! node_name = Some attrs'
         ∧ attrs' !! "color" = Some node_color
         ∧ attrs' !! "styled" = Some "filled"
         ∧ attrs' !! "fillcolor" = Some node_color
         ∧ attrs' !! "fontcolor" = Some font_color
         ∧ ∀ k, k ∉ ["color"; "styled"; "fillcolor"; "fontcolor"] →
                attrs' !! k = attrs !! k).
Proof.
  unfold CommNetwork.colorize. split.
  - intros e. destruct (CommNetwork.g_node graph !! node_name).
    + split; [done|]. by intros [_ ?].
    + split; [by intros [= <-]|by intros [-> _]].
  - intros attrs ->. eexists _, _. split; [done|]. cbn.
    split; [done|]. split.
    { intros m Hm. by rewrite lookup_insert_ne. }
    split; [by rewrite lookup_insert_eq|].
    repeat split; try by simplify_map_eq.
    intros k Hk. rewrite !lookup_insert_ne; [done|..];
      intros <-; apply Hk; set_solver.
Qed.

Lemma colorize_sets_four_attributes_witness :
  ∃ G' attrs',
    CommNetwork.colorize
      (CommNetwork.add_node "a" CommNetwork.empty_graph) "a" "red" "black"
    = CommNetwork.Ok G'
    ∧ CommNetwork.g_adj G'
      = CommNetwork.g_adj (CommNetwork.add_node "a" CommNetwork.empty_graph)
    ∧ (∀ m, m ≠ "a" →
            CommNetwork.g_node G' !! m
            = CommNetwork.g_node
                (CommNetwork.add_node "a" CommNetwork.empty_graph) !! m)
    ∧ CommNetwork.g_node G' !! "a" = Some attrs'
    ∧ attrs' !! "color" = Some "red"
    ∧ attrs' !! "styled" = Some "filled"
    ∧ attrs' !! "fillcolor" = Some "red"
    ∧ attrs' !! "fontcolor" = Some "black"
    ∧ ∀ k, k ∉ ["color"; "styled"; "fillcolor"; "fontcolor"] →
           attrs' !! k = (∅ : gmap string string) !! k.
Proof.
  apply (proj2 (colorize_sets_four_attributes
                  (CommNetwork.add_node "a" CommNetwork.empty_graph)
                  "a" "red" "black") ∅).
  reflexivity.
Defined.

(** X28. Colouring a node a second time overwrites the first colouring:
    the result is that of the second call alone. *)
Theorem colorize_twice_keeps_last graph node_name c1 f1 c2 f2 G1 :
  CommNetwork.colorize graph node_name c1 f1 = CommNetwork.Ok G1 →
  CommNetwork.colorize G1 node_name c2 f2
  = CommNetwork.colorize graph node_name c2 f2.
Proof.
  unfold CommNetwork.colorize.
  destruct (CommNetwork.g_node graph !! node_name) as [attrs|]; [|done].
  intros [= <-]. cbn. rewrite lookup_insert_eq. do 2 f_equal.
  rewrite insert_insert_eq. f_equal.
  apply map_eq. intros k. rewrite !lookup_insert.
  repeat case_decide; done.
Qed.

Lemma colorize_twice_keeps_last_witness :
  CommNetwork.colorize
    (CommNetwork.mkGraph {[ "a" := {[ "color" := "red";
                                       "styled" := "filled";
                                       "fillcolor" := "red";
                                       "fontcolor" := "black" ]} ]} {[ "a" := ∅ ]})
    "a" "blue" "white"
  = CommNetwork.colorize
      (CommNetwork.add_node "a" CommNetwork.empty_graph) "a" "blue" "white".
Proof.
  apply (colorize_twice_keeps_last
           (CommNetwork.add_node "a" CommNetwork.empty_graph)
           "a" "red" "black" "blue" "white").
  vm_compute. reflexivity.
Defined.

(** ** The crawler script on a network that always answers *)



